(** * Fullwidth character support of the ASCII renderer (src/ascii/cjk.ts)

    A shallow embedding of the classification tables, of [displayWidth]
    and of [drawCJKText], and the properties of the specification that
    they satisfy (or fail to satisfy).

    Conventions of the embedding:
    - a JavaScript [number] used as a code point, a column or a row is a
      [Z];
    - a JavaScript string is the list of the code points that
      [for (const ch of str)] enumerates, so that [ch] is a one-element
      list and [ch.codePointAt(0)] is its element (never [undefined]);
      string concatenation is [++];
    - an array is a list; an array element that is [undefined] (a hole,
      or a read past the end) is [None]. *)

From Stdlib Require Import ZArith Bool List Lia.
From Stdlib Require Import PrimFloat Uint63.
From stdpp Require Import base option list.
Import ListNotations.

Local Open Scope Z_scope.

(** ** Code points and strings *)

Definition codepoint := Z.
Definition jsstring := list codepoint.

(** U+FE0F, VARIATION SELECTOR-16: the emoji presentation selector. *)
Definition VS16 : codepoint := 0xfe0f.

(** The sentinel U+E000 (Private Use Area) that fills the right half of a
    fullwidth character. *)
Definition CJK_PAD : jsstring := [0xe000].

(** ** Classification tables *)

Definition isFullwidthChar (code : codepoint) : bool :=
  (* --- CJK --- *)
  ((code >=? 0x1100) && (code <=? 0x115f)) ||
  ((code >=? 0x2e80) && (code <=? 0x2eff)) ||
  ((code >=? 0x2f00) && (code <=? 0x2fdf)) ||
  ((code >=? 0x3000) && (code <=? 0x303f)) ||
  ((code >=? 0x3040) && (code <=? 0x309f)) ||
  ((code >=? 0x30a0) && (code <=? 0x30ff)) ||
  ((code >=? 0x3100) && (code <=? 0x312f)) ||
  ((code >=? 0x3130) && (code <=? 0x318f)) ||
  ((code >=? 0x3190) && (code <=? 0x31ff)) ||
  ((code >=? 0x3200) && (code <=? 0x33ff)) ||
  ((code >=? 0x3400) && (code <=? 0x4dbf)) ||
  ((code >=? 0x4e00) && (code <=? 0x9fff)) ||
  ((code >=? 0xac00) && (code <=? 0xd7af)) ||
  ((code >=? 0xf900) && (code <=? 0xfaff)) ||
  ((code >=? 0xfe30) && (code <=? 0xfe4f)) ||
  ((code >=? 0xff00) && (code <=? 0xff60)) ||
  ((code >=? 0xffe0) && (code <=? 0xffe6)) ||
  (* --- Emoji SMP (EAW=W, always 2 columns) --- *)
  (code =? 0x1f004) || (code =? 0x1f0cf) || (code =? 0x1f18e) ||
  ((code >=? 0x1f191) && (code <=? 0x1f19a)) ||
  ((code >=? 0x1f1e0) && (code <=? 0x1f1ff)) ||
  ((code >=? 0x1f200) && (code <=? 0x1f202)) ||
  ((code >=? 0x1f300) && (code <=? 0x1f64f)) ||
  ((code >=? 0x1f680) && (code <=? 0x1f6ff)) ||
  ((code >=? 0x1f900) && (code <=? 0x1f9ff)) ||
  ((code >=? 0x1fa00) && (code <=? 0x1fa6f)) ||
  ((code >=? 0x1fa70) && (code <=? 0x1faff)) ||
  (* --- BMP emoji (EAW=W only, always 2 columns) --- *)
  (code =? 0x231a) || (code =? 0x231b) ||
  ((code >=? 0x23e9) && (code <=? 0x23ec)) ||
  (code =? 0x23f0) || (code =? 0x23f3) ||
  (code =? 0x25fd) || (code =? 0x25fe) ||
  (code =? 0x2614) || (code =? 0x2615) ||
  ((code >=? 0x2648) && (code <=? 0x2653)) ||
  (code =? 0x267f) || (code =? 0x2693) ||
  (code =? 0x26a1) ||
  (code =? 0x26aa) || (code =? 0x26ab) ||
  (code =? 0x26bd) || (code =? 0x26be) ||
  (code =? 0x26c4) || (code =? 0x26c5) ||
  (code =? 0x26ce) || (code =? 0x26d4) ||
  (code =? 0x26ea) || (code =? 0x26f2) || (code =? 0x26f3) ||
  (code =? 0x26f5) || (code =? 0x26fa) || (code =? 0x26fd) ||
  (code =? 0x2705) ||
  (code =? 0x270a) || (code =? 0x270b) ||
  (code =? 0x2728) ||
  (code =? 0x274c) || (code =? 0x274e) ||
  ((code >=? 0x2753) && (code <=? 0x2755)) ||
  (code =? 0x2757) ||
  ((code >=? 0x2795) && (code <=? 0x2797)) ||
  (code =? 0x27b0) || (code =? 0x27bf) ||
  (code =? 0x2b1b) || (code =? 0x2b1c) ||
  (code =? 0x2b50) || (code =? 0x2b55) ||
  (code =? 0x3030) || (code =? 0x303d) ||
  (code =? 0x3297) || (code =? 0x3299) ||
  (* --- CJK Extension B through I + Compatibility Supplement --- *)
  ((code >=? 0x20000) && (code <=? 0x2a6df)) ||
  ((code >=? 0x2a700) && (code <=? 0x2b73f)) ||
  ((code >=? 0x2b740) && (code <=? 0x2b81f)) ||
  ((code >=? 0x2b820) && (code <=? 0x2ceaf)) ||
  ((code >=? 0x2ceb0) && (code <=? 0x2ebef)) ||
  ((code >=? 0x2f800) && (code <=? 0x2fa1f)) ||
  ((code >=? 0x30000) && (code <=? 0x3134f)) ||
  ((code >=? 0x31350) && (code <=? 0x323af)) ||
  ((code >=? 0x2ebf0) && (code <=? 0x2f7ff)).

Definition isEmojiModifiable (code : codepoint) : bool :=
  (code =? 0x26a0) ||
  (code =? 0x2702) ||
  (code =? 0x2708) || (code =? 0x2709) ||
  (code =? 0x270c) || (code =? 0x270d) ||
  (code =? 0x270f) || (code =? 0x2712) ||
  (code =? 0x2714) || (code =? 0x2716) ||
  (code =? 0x271d) || (code =? 0x2721) ||
  (code =? 0x2733) || (code =? 0x2734) ||
  (code =? 0x2744) || (code =? 0x2747) ||
  (code =? 0x2763) || (code =? 0x2764) ||
  (code =? 0x27a1) ||
  (code =? 0x2934) || (code =? 0x2935) ||
  ((code >=? 0x2b05) && (code <=? 0x2b07)) ||
  (code =? 0x00a9) ||
  (code =? 0x00ae) ||
  (code =? 0x2122) ||
  (code =? 0x2139) ||
  ((code >=? 0x2194) && (code <=? 0x2199)) ||
  ((code >=? 0x21a9) && (code <=? 0x21aa)) ||
  (code =? 0x231a) || (code =? 0x231b) ||
  ((code >=? 0x23e9) && (code <=? 0x23f3)) ||
  ((code >=? 0x23f8) && (code <=? 0x23fa)) ||
  (code =? 0x25aa) || (code =? 0x25ab) ||
  (code =? 0x25b6) || (code =? 0x25c0) ||
  (code =? 0x25fb) || (code =? 0x25fc) ||
  (code =? 0x2600) || (code =? 0x2601) ||
  ((code >=? 0x2602) && (code <=? 0x2604)) ||
  (code =? 0x260e) ||
  (code =? 0x2611) ||
  ((code >=? 0x2618) && (code <=? 0x261d)) ||
  (code =? 0x2620) ||
  (code =? 0x2622) || (code =? 0x2623) ||
  (code =? 0x2626) || (code =? 0x262a) ||
  (code =? 0x262e) || (code =? 0x262f) ||
  ((code >=? 0x2638) && (code <=? 0x263a)) ||
  (code =? 0x2640) || (code =? 0x2642) ||
  ((code >=? 0x2660) && (code <=? 0x2668)) ||
  (code =? 0x267b) || (code =? 0x267e).

Definition isZeroWidth (code : codepoint) : bool :=
  ((code >=? 0xfe00) && (code <=? 0xfe0f)) ||
  (code =? 0x200b) ||
  (code =? 0x200c) ||
  (code =? 0x200d) ||
  (code =? 0xfeff) ||
  ((code >=? 0xe0100) && (code <=? 0xe01ef)) ||
  ((code >=? 0x0300) && (code <=? 0x036f)) ||
  ((code >=? 0x0483) && (code <=? 0x0489)) ||
  ((code >=? 0x0591) && (code <=? 0x05bd)) ||
  ((code >=? 0x0610) && (code <=? 0x061a)) ||
  ((code >=? 0x064b) && (code <=? 0x065f)) ||
  ((code >=? 0x20d0) && (code <=? 0x20ff)).

(** ** Width accumulator *)

(** The two local variables of [displayWidth]. *)
Record WidthState := mkWidthState {
  w : Z;
  prevWasNarrowEmoji : bool
}.

(** One iteration of the [for (const ch of str)] loop of [displayWidth]. *)
Definition displayWidth_step (st : WidthState) (code : codepoint) : WidthState :=
  if code =? 0xfe0f then
    if prevWasNarrowEmoji st
    then mkWidthState (w st + 1) false
    else st
  else if isZeroWidth code then st
  else if isFullwidthChar code then
    mkWidthState (w st + 2) false
  else
    mkWidthState (w st + 1) (isEmojiModifiable code).

Definition displayWidth_loop (str : jsstring) (st : WidthState) : WidthState :=
  fold_left displayWidth_step str st.

Definition displayWidth (str : jsstring) : Z :=
  w (displayWidth_loop str (mkWidthState 0 false)).

(** ** Column-major grids

    [canvas[x][y]]: a grid is an array of columns, a column an array of
    cells.  JavaScript reads [undefined] past the end of an array and an
    assignment past the end extends the array, leaving holes. *)

Abbreviation Column A := (list (option A)) (only parsing).
Abbreviation Grid A := (list (list (option A))) (only parsing).

(** [arr[i]] as an expression. *)
Definition js_index {A : Type} (arr : list A) (i : Z) : option A :=
  if i <? 0 then None else arr !! Z.to_nat i.

(** [arr[i] = v] on an array with holes. *)
Definition js_assign {A : Type} (arr : Column A) (i : Z) (v : A) : Column A :=
  if i <? 0 then arr
  else
    let n := Z.to_nat i in
    if (n <? length arr)%nat then <[n := Some v]> arr
    else arr ++ replicate (n - length arr) None ++ [Some v].

(** [g[cx]![y]] as an expression.  Where [g[cx]] is [undefined] JavaScript
    throws; the checked model below accounts for that, here the read
    yields [None]. *)
Definition cell_get {A : Type} (g : Grid A) (cx y : Z) : option A :=
  match js_index g cx with
  | Some col => mjoin (js_index col y)
  | None => None
  end.

(** [g[cx]![y] = v]. *)
Definition cell_set {A : Type} (g : Grid A) (cx y : Z) (v : A) : Grid A :=
  match js_index g cx with
  | Some col => <[Z.to_nat cx := js_assign col y v]> g
  | None => g
  end.

(** [g.length] *)
Definition grid_width {A : Type} (g : Grid A) : Z := Z.of_nat (length g).

(** [g[0]?.length ?? 0] *)
Definition grid_height {A : Type} (g : Grid A) : Z :=
  match g with
  | col :: _ => Z.of_nat (length col)
  | [] => 0
  end.

(** [cx >= 0 && cx < canvas.length && y >= 0 && y < h] *)
Definition in_bounds {A : Type} (g : Grid A) (h cx y : Z) : bool :=
  (cx >=? 0) && (cx <? grid_width g) && (y >=? 0) && (y <? h).

(** [cell === ' '] *)
Definition is_space (cell : option jsstring) : bool :=
  match cell with
  | Some [c] => c =? 0x20
  | _ => false
  end.

(** A grid all of whose columns have the height of the first one. *)
Definition rectangular {A : Type} (g : Grid A) : Prop :=
  Forall (fun col => Z.of_nat (length col) = grid_height g) g.

(** ** Grid text writer *)

Section Draw.

(** The tags of the style grid ([CharRole] of src/ascii/types.ts, which the
    writer only stores). *)
Context {CharRole : Type}.

(** The local variables of [drawCJKText] together with the two grids it
    mutates in place. *)
Record DrawState := mkDrawState {
  canvas : Grid jsstring;
  roleCanvas : option (Grid CharRole);
  offset : Z;
  lastWrittenCx : Z;
  lastWasFullwidth : bool
}.

(** The invariable arguments of one call. *)
Record DrawArgs := mkDrawArgs {
  arg_x : Z;
  arg_y : Z;
  forceOverwrite : bool;
  arg_role : option CharRole;
  arg_h : Z   (* [const h = canvas[0]?.length ?? 0] *)
}.

(** The [if (code === 0xfe0f) { ... continue }] branch. *)
Definition draw_selector (a : DrawArgs) (st : DrawState) (code : codepoint) : DrawState :=
  let lw := lastWrittenCx st in
  let y := arg_y a in
  let canvas1 :=
    if in_bounds (canvas st) (arg_h a) lw y
    then cell_set (canvas st) lw y (default [] (cell_get (canvas st) lw y) ++ [code])
    else canvas st in
  if negb (lastWasFullwidth st) then
    let px := arg_x a + offset st in
    let canvas2 :=
      if in_bounds canvas1 (arg_h a) px y
      then cell_set canvas1 px y CJK_PAD
      else canvas1 in
    mkDrawState canvas2 (roleCanvas st) (offset st + 1) lw true
  else
    mkDrawState canvas1 (roleCanvas st) (offset st) lw (lastWasFullwidth st).

(** The test that guards the glyph write:
    [in bounds && (forceOverwrite || canvas[cx]![y] === ' ')]. *)
Definition glyph_writable (a : DrawArgs) (st : DrawState) : bool :=
  let cx := arg_x a + offset st in
  in_bounds (canvas st) (arg_h a) cx (arg_y a) &&
  (forceOverwrite a || is_space (cell_get (canvas st) cx (arg_y a))).

(** [if (roleCanvas && role !== undefined && cx < roleCanvas.length &&
        y < (roleCanvas[0]?.length ?? 0)) roleCanvas[cx]![y] = role] *)
Definition tag_role (rc : option (Grid CharRole)) (role : option CharRole)
    (cx y : Z) : option (Grid CharRole) :=
  match rc, role with
  | Some g, Some r =>
      if (cx <? grid_width g) && (y <? grid_height g)
      then Some (cell_set g cx y r)
      else rc
  | _, _ => rc
  end.

(** The part of the loop body that draws an ordinary character. *)
Definition draw_glyph (a : DrawArgs) (st : DrawState) (code : codepoint) : DrawState :=
  let y := arg_y a in
  let cx := arg_x a + offset st in
  let written := glyph_writable a st in
  let canvas1 := if written then cell_set (canvas st) cx y [code] else canvas st in
  let role1 := if written then tag_role (roleCanvas st) (arg_role a) cx y else roleCanvas st in
  let lw := if written then cx else lastWrittenCx st in
  let offset1 := offset st + 1 in
  if isFullwidthChar code then
    let canvas2 :=
      if written then
        let px := arg_x a + offset1 in
        if in_bounds canvas1 (arg_h a) px y
        then cell_set canvas1 px y CJK_PAD
        else canvas1
      else canvas1 in
    mkDrawState canvas2 role1 (offset1 + 1) lw true
  else
    mkDrawState canvas1 role1 offset1 lw false.

(** One iteration of the [for (const ch of text)] loop. *)
Definition draw_step (a : DrawArgs) (st : DrawState) (code : codepoint) : DrawState :=
  if code =? 0xfe0f then draw_selector a st code
  else if isZeroWidth code then st
  else draw_glyph a st code.

Definition draw_loop (a : DrawArgs) (text : jsstring) (st : DrawState) : DrawState :=
  fold_left (draw_step a) text st.

Definition draw_args (c : Grid jsstring) (x y : Z) (force : bool)
    (role : option CharRole) : DrawArgs :=
  mkDrawArgs x y force role (grid_height c).

Definition draw_init (c : Grid jsstring) (rc : option (Grid CharRole)) : DrawState :=
  mkDrawState c rc 0 (-1) false.

(** [drawCJKText(canvas, x, y, text, forceOverwrite, roleCanvas, role)]:
    the state in which the call leaves the two grids (and its locals). *)
Definition drawCJKText (c : Grid jsstring) (x y : Z) (text : jsstring)
    (force : bool) (rc : option (Grid CharRole)) (role : option CharRole) : DrawState :=
  draw_loop (draw_args c x y force role) text (draw_init c rc).

End Draw.

Arguments DrawState : clear implicits.
Arguments DrawArgs : clear implicits.

(** A row of the canvas, for display: the cells [canvas[0][y]],
    [canvas[1][y]], ... *)
Definition canvas_row (c : Grid jsstring) (y : Z) : list (option jsstring) :=
  map (fun col => mjoin (js_index col y)) c.

(** A blank grid of [wd] columns and [ht] rows, and a one-row grid built
    from given cells. *)
Definition blank_canvas (wd ht : nat) : Grid jsstring :=
  replicate wd (replicate ht (Some [0x20])).

Definition row_canvas (cells : list jsstring) : Grid jsstring :=
  map (fun s => [Some s]) cells.

(** ** Checked array accesses

    The same loop under a strict reading of array accesses: indexing a
    column that does not exist is the [TypeError] JavaScript throws on
    [undefined[y]], and touching a cell past the end of its column is an
    out-of-range access.  The writer is safe when this model never
    faults. *)

Inductive fault := TypeError | OutOfRange.

Inductive result (A : Type) : Type :=
| Ok (a : A)
| Fault (f : fault).

Arguments Ok {A} a.
Arguments Fault {A} f.

Definition result_bind {A B : Type} (m : result A) (k : A -> result B) : result B :=
  match m with
  | Ok a => k a
  | Fault f => Fault f
  end.

Declare Scope result_scope.
Delimit Scope result_scope with result.
Notation "x <-- m ;; k" := (result_bind m (fun x => k))
  (at level 100, m at next level, right associativity) : result_scope.

(** [0 <= y < col.length] *)
Definition row_in_column {A : Type} (col : Column A) (y : Z) : bool :=
  (0 <=? y) && (y <? Z.of_nat (length col)).

Definition checked_get {A : Type} (g : Grid A) (cx y : Z) : result (option A) :=
  match js_index g cx with
  | None => Fault TypeError
  | Some col =>
      if row_in_column col y then Ok (mjoin (js_index col y)) else Fault OutOfRange
  end.

Definition checked_set {A : Type} (g : Grid A) (cx y : Z) (v : A) : result (Grid A) :=
  match js_index g cx with
  | None => Fault TypeError
  | Some col =>
      if row_in_column col y then Ok (cell_set g cx y v) else Fault OutOfRange
  end.

Section CheckedDraw.

Context {CharRole : Type}.

Local Open Scope result_scope.

Definition checked_selector (a : DrawArgs CharRole) (st : DrawState CharRole)
    (code : codepoint) : result (DrawState CharRole) :=
  let lw := lastWrittenCx st in
  let y := arg_y a in
  canvas1 <--
    (if in_bounds (canvas st) (arg_h a) lw y
     then old <-- checked_get (canvas st) lw y ;;
          checked_set (canvas st) lw y (default [] old ++ [code])
     else Ok (canvas st)) ;;
  if negb (lastWasFullwidth st) then
    let px := arg_x a + offset st in
    canvas2 <--
      (if in_bounds canvas1 (arg_h a) px y
       then checked_set canvas1 px y CJK_PAD
       else Ok canvas1) ;;
    Ok (mkDrawState canvas2 (roleCanvas st) (offset st + 1) lw true)
  else
    Ok (mkDrawState canvas1 (roleCanvas st) (offset st) lw (lastWasFullwidth st)).

(** [forceOverwrite || canvas[cx]![y] === ' '], the cell being read only
    when [forceOverwrite] is false. *)
Definition checked_writable (a : DrawArgs CharRole) (st : DrawState CharRole) : result bool :=
  let cx := arg_x a + offset st in
  if in_bounds (canvas st) (arg_h a) cx (arg_y a) then
    if forceOverwrite a then Ok true
    else cell <-- checked_get (canvas st) cx (arg_y a) ;; Ok (is_space cell)
  else Ok false.

Definition checked_tag_role (rc : option (Grid CharRole)) (role : option CharRole)
    (cx y : Z) : result (option (Grid CharRole)) :=
  match rc, role with
  | Some g, Some r =>
      if (cx <? grid_width g) && (y <? grid_height g)
      then g' <-- checked_set g cx y r ;; Ok (Some g')
      else Ok rc
  | _, _ => Ok rc
  end.

Definition checked_glyph (a : DrawArgs CharRole) (st : DrawState CharRole)
    (code : codepoint) : result (DrawState CharRole) :=
  let y := arg_y a in
  let cx := arg_x a + offset st in
  written <-- checked_writable a st ;;
  canvas1 <-- (if written then checked_set (canvas st) cx y [code] else Ok (canvas st)) ;;
  role1 <-- (if written then checked_tag_role (roleCanvas st) (arg_role a) cx y
             else Ok (roleCanvas st)) ;;
  let lw := if written then cx else lastWrittenCx st in
  let offset1 := offset st + 1 in
  if isFullwidthChar code then
    canvas2 <--
      (if written then
         let px := arg_x a + offset1 in
         if in_bounds canvas1 (arg_h a) px y
         then checked_set canvas1 px y CJK_PAD
         else Ok canvas1
       else Ok canvas1) ;;
    Ok (mkDrawState canvas2 role1 (offset1 + 1) lw true)
  else
    Ok (mkDrawState canvas1 role1 offset1 lw false).

Definition checked_step (a : DrawArgs CharRole) (st : DrawState CharRole)
    (code : codepoint) : result (DrawState CharRole) :=
  if code =? 0xfe0f then checked_selector a st code
  else if isZeroWidth code then Ok st
  else checked_glyph a st code.

Fixpoint checked_loop (a : DrawArgs CharRole) (text : jsstring)
    (st : DrawState CharRole) : result (DrawState CharRole) :=
  match text with
  | [] => Ok st
  | code :: rest => st' <-- checked_step a st code ;; checked_loop a rest st'
  end.

Definition checked_drawCJKText (c : Grid jsstring) (x y : Z) (text : jsstring)
    (force : bool) (rc : option (Grid CharRole)) (role : option CharRole)
    : result (DrawState CharRole) :=
  checked_loop (draw_args c x y force role) text (draw_init c rc).

End CheckedDraw.

(** A style grid, when there is one, is rectangular. *)
Definition role_rectangular {CharRole : Type} (rc : option (Grid CharRole)) : Prop :=
  match rc with
  | Some g => rectangular g
  | None => True
  end.

(** The cell of the optional style grid. *)
Definition role_get {CharRole : Type} (rc : option (Grid CharRole)) (cx y : Z)
    : option CharRole :=
  match rc with
  | Some g => cell_get g cx y
  | None => None
  end.

(** ** Loop invariants *)

Section Invariants.

Context {CharRole : Type}.

(** While processing [pre], the call wrote a glyph into the cell of
    column [cx] (of row [y]): some iteration on an ordinary character
    found its cell writable and that cell was column [cx]. *)
Definition wrote_glyph_at (a : DrawArgs CharRole) (st0 : DrawState CharRole)
    (pre : jsstring) (cx : Z) : Prop :=
  exists (pre1 : jsstring) (g : codepoint) (pre2 : jsstring),
    pre = pre1 ++ g :: pre2 /\
    (g =? 0xfe0f) = false /\ isZeroWidth g = false /\
    glyph_writable a (draw_loop a pre1 st0) = true /\
    cx = arg_x a + offset (draw_loop a pre1 st0).

(** With [forceOverwrite] off, relative to the grid [c0] the call
    started from: the last written column is behind the cursor and was
    blank; the cells from the cursor on are still those of [c0]; and a
    cell that was not blank holds what it held, or the sentinel. *)
Definition no_overwrite_inv (c0 : Grid jsstring) (a : DrawArgs CharRole)
    (st : DrawState CharRole) : Prop :=
  (0 <= lastWrittenCx st ->
   lastWrittenCx st < arg_x a + offset st /\
   cell_get c0 (lastWrittenCx st) (arg_y a) = Some [0x20]) /\
  (forall cx r, arg_x a + offset st <= cx ->
     cell_get (canvas st) cx r = cell_get c0 cx r) /\
  (forall cx r s, cell_get c0 cx r = Some s -> s <> [0x20] ->
     cell_get (canvas st) cx r = Some s \/
     cell_get (canvas st) cx r = Some CJK_PAD).

End Invariants.

(** ** Selectors that upgrade

    Whether every presentation selector of [text] finds the lookback flag
    of [displayWidth] set, that is, widens the character before it; [f]
    is the flag on entry. *)
Fixpoint selectors_upgrade_from (f : bool) (text : jsstring) : bool :=
  match text with
  | [] => true
  | code :: rest =>
      if code =? 0xfe0f
      then f && selectors_upgrade_from false rest
      else selectors_upgrade_from
             (prevWasNarrowEmoji (displayWidth_step (mkWidthState 0 f) code)) rest
  end.

Definition selectors_upgrade (text : jsstring) : bool :=
  selectors_upgrade_from false text.

(** ** Two runs of the loop

    Two grids [c1], [c2] that started as [g1], [g2] and have received
    the same writes: at every cell they agree, or each still holds what
    it started with. *)
Definition same_writes {A : Type} (g1 g2 c1 c2 : Grid A) : Prop :=
  forall cx r,
    cell_get c1 cx r = cell_get c2 cx r \/
    (cell_get c1 cx r = cell_get g1 cx r /\ cell_get c2 cx r = cell_get g2 cx r).

Definition same_role_writes {CharRole : Type}
    (r1 r2 s1 s2 : option (Grid CharRole)) : Prop :=
  forall cx r,
    role_get s1 cx r = role_get s2 cx r \/
    (role_get s1 cx r = role_get r1 cx r /\ role_get s2 cx r = role_get r2 cx r).

(** Two states of the loop, on grids of the same size, with the same
    locals, the same content in the last written cell, and grids that
    have received the same writes since [g1], [r1] and [g2], [r2]. *)
Definition runs_related {CharRole : Type} (a : DrawArgs CharRole)
    (g1 g2 : Grid jsstring) (r1 r2 : option (Grid CharRole))
    (st st' : DrawState CharRole) : Prop :=
  offset st = offset st' /\
  lastWrittenCx st = lastWrittenCx st' /\
  lastWasFullwidth st = lastWasFullwidth st' /\
  grid_width (canvas st) = grid_width (canvas st') /\
  from_option grid_width 0 (roleCanvas st) = from_option grid_width 0 (roleCanvas st') /\
  from_option grid_height 0 (roleCanvas st) = from_option grid_height 0 (roleCanvas st') /\
  (is_Some (roleCanvas st) <-> is_Some (roleCanvas st')) /\
  (in_bounds (canvas st) (arg_h a) (lastWrittenCx st) (arg_y a) = true ->
   cell_get (canvas st) (lastWrittenCx st) (arg_y a)
   = cell_get (canvas st') (lastWrittenCx st) (arg_y a)) /\
  same_writes g1 g2 (canvas st) (canvas st') /\
  same_role_writes r1 r2 (roleCanvas st) (roleCanvas st').

(** ** Selectors that follow a written glyph

    Whether the selector met in state [st] comes after a glyph that this
    call wrote in the cell left of the cursor, or after a wide character
    (when it writes no sentinel): false before any glyph and after a
    single-width glyph that was skipped. *)
Definition selector_after_written {CharRole : Type} (a : DrawArgs CharRole)
    (st : DrawState CharRole) : bool :=
  lastWasFullwidth st ||
  ((0 <=? lastWrittenCx st) && (lastWrittenCx st =? arg_x a + offset st - 1)).

(** The same of every selector of [text], drawn from state [st]. *)
Fixpoint selectors_follow_written {CharRole : Type} (a : DrawArgs CharRole)
    (text : jsstring) (st : DrawState CharRole) : bool :=
  match text with
  | [] => true
  | code :: rest =>
      (if code =? 0xfe0f then selector_after_written a st else true) &&
      selectors_follow_written a rest (draw_step a st code)
  end.

(** ** Concatenation of strings

    [s1 + s2]: JavaScript strings are sequences of UTF-16 code units, so
    a high surrogate that ends [s1] and a low surrogate that begins [s2]
    are read by [for...of] as the one code point they encode. *)
Definition is_high_surrogate (c : codepoint) : bool := (0xd800 <=? c) && (c <=? 0xdbff).
Definition is_low_surrogate (c : codepoint) : bool := (0xdc00 <=? c) && (c <=? 0xdfff).

Definition surrogates_join (s1 s2 : jsstring) : bool :=
  match last s1, s2 with
  | Some hi, lo :: _ => is_high_surrogate hi && is_low_surrogate lo
  | _, _ => false
  end.

Definition js_concat (s1 s2 : jsstring) : jsstring :=
  match last s1, s2 with
  | Some hi, lo :: rest =>
      if is_high_surrogate hi && is_low_surrogate lo
      then removelast s1 ++ (0x10000 + (hi - 0xd800) * 0x400 + (lo - 0xdc00)) :: rest
      else s1 ++ s2
  | _, _ => s1 ++ s2
  end.

(** ** Coordinates that are not integers

    [x] and [y] are JavaScript numbers.  The loop again, under the strict
    reading of array accesses, with the coordinates as binary64 floats:
    [arr[k]] is the element [i] when the number [k] equals the integer
    [i], and [undefined] for any other number. *)

(** The number of an integer (exact below 2^53). *)
Definition num_of_Z (z : Z) : float :=
  if z <? 0 then PrimFloat.opp (PrimFloat.of_uint63 (Uint63.of_Z (- z)))
  else PrimFloat.of_uint63 (Uint63.of_Z z).

(** The position that the key [k] denotes in [arr], if any. *)
Definition array_position {A : Type} (arr : list A) (k : float) : option nat :=
  List.find (fun i => PrimFloat.eqb k (num_of_Z (Z.of_nat i))) (seq 0 (length arr)).

Definition num_checked_get {A : Type} (g : Grid A) (cx y : float) : result (option A) :=
  match array_position g cx with
  | None => Fault TypeError
  | Some i =>
      match g !! i with
      | None => Fault TypeError
      | Some col =>
          match array_position col y with
          | None => Fault OutOfRange
          | Some j => Ok (mjoin (col !! j))
          end
      end
  end.

Definition num_checked_set {A : Type} (g : Grid A) (cx y : float) (v : A)
    : result (Grid A) :=
  match array_position g cx with
  | None => Fault TypeError
  | Some i =>
      match g !! i with
      | None => Fault TypeError
      | Some col =>
          match array_position col y with
          | None => Fault OutOfRange
          | Some j => Ok (<[i := <[j := Some v]> col]> g)
          end
      end
  end.

(** [cx >= 0 && cx < canvas.length && y >= 0 && y < h] on numbers. *)
Definition num_in_bounds {A : Type} (g : Grid A) (h cx y : float) : bool :=
  PrimFloat.leb (num_of_Z 0) cx && PrimFloat.ltb cx (num_of_Z (grid_width g)) &&
  PrimFloat.leb (num_of_Z 0) y && PrimFloat.ltb y h.

Section NumCheckedDraw.

Context {CharRole : Type}.

Local Open Scope result_scope.

Record NumState := mkNumState {
  num_canvas : Grid jsstring;
  num_roleCanvas : option (Grid CharRole);
  num_offset : Z;
  num_lastWrittenCx : float;
  num_lastWasFullwidth : bool
}.

Record NumArgs := mkNumArgs {
  num_x : float;
  num_y : float;
  num_force : bool;
  num_role : option CharRole;
  num_h : float
}.

Definition num_selector (a : NumArgs) (st : NumState) (code : codepoint)
    : result NumState :=
  let lw := num_lastWrittenCx st in
  let y := num_y a in
  canvas1 <--
    (if num_in_bounds (num_canvas st) (num_h a) lw y
     then old <-- num_checked_get (num_canvas st) lw y ;;
          num_checked_set (num_canvas st) lw y (default [] old ++ [code])
     else Ok (num_canvas st)) ;;
  if negb (num_lastWasFullwidth st) then
    let px := PrimFloat.add (num_x a) (num_of_Z (num_offset st)) in
    canvas2 <--
      (if num_in_bounds canvas1 (num_h a) px y
       then num_checked_set canvas1 px y CJK_PAD
       else Ok canvas1) ;;
    Ok (mkNumState canvas2 (num_roleCanvas st) (num_offset st + 1) lw true)
  else
    Ok (mkNumState canvas1 (num_roleCanvas st) (num_offset st) lw
          (num_lastWasFullwidth st)).

Definition num_writable (a : NumArgs) (st : NumState) : result bool :=
  let cx := PrimFloat.add (num_x a) (num_of_Z (num_offset st)) in
  if num_in_bounds (num_canvas st) (num_h a) cx (num_y a) then
    if num_force a then Ok true
    else cell <-- num_checked_get (num_canvas st) cx (num_y a) ;; Ok (is_space cell)
  else Ok false.

Definition num_tag_role (rc : option (Grid CharRole)) (role : option CharRole)
    (cx y : float) : result (option (Grid CharRole)) :=
  match rc, role with
  | Some g, Some r =>
      if PrimFloat.ltb cx (num_of_Z (grid_width g)) &&
         PrimFloat.ltb y (num_of_Z (grid_height g))
      then g' <-- num_checked_set g cx y r ;; Ok (Some g')
      else Ok rc
  | _, _ => Ok rc
  end.

Definition num_glyph (a : NumArgs) (st : NumState) (code : codepoint)
    : result NumState :=
  let y := num_y a in
  let cx := PrimFloat.add (num_x a) (num_of_Z (num_offset st)) in
  written <-- num_writable a st ;;
  canvas1 <-- (if written then num_checked_set (num_canvas st) cx y [code]
               else Ok (num_canvas st)) ;;
  role1 <-- (if written then num_tag_role (num_roleCanvas st) (num_role a) cx y
             else Ok (num_roleCanvas st)) ;;
  let lw := if written then cx else num_lastWrittenCx st in
  let offset1 := num_offset st + 1 in
  if isFullwidthChar code then
    canvas2 <--
      (if written then
         let px := PrimFloat.add (num_x a) (num_of_Z offset1) in
         if num_in_bounds canvas1 (num_h a) px y
         then num_checked_set canvas1 px y CJK_PAD
         else Ok canvas1
       else Ok canvas1) ;;
    Ok (mkNumState canvas2 role1 (offset1 + 1) lw true)
  else
    Ok (mkNumState canvas1 role1 offset1 lw false).

Definition num_step (a : NumArgs) (st : NumState) (code : codepoint)
    : result NumState :=
  if code =? 0xfe0f then num_selector a st code
  else if isZeroWidth code then Ok st
  else num_glyph a st code.

Fixpoint num_loop (a : NumArgs) (text : jsstring) (st : NumState)
    : result NumState :=
  match text with
  | [] => Ok st
  | code :: rest => st' <-- num_step a st code ;; num_loop a rest st'
  end.

Definition num_checked_drawCJKText (c : Grid jsstring) (x y : float)
    (text : jsstring) (force : bool) (rc : option (Grid CharRole))
    (role : option CharRole) : result NumState :=
  num_loop (mkNumArgs x y force role (num_of_Z (grid_height c))) text
    (mkNumState c rc 0 (num_of_Z (-1)) false).

End NumCheckedDraw.

Arguments NumState : clear implicits.
Arguments NumArgs : clear implicits.

(** The character grid a checked run ends with, if it ends. *)
Definition num_result_canvas {CharRole : Type} (r : result (NumState CharRole))
    : result (Grid jsstring) :=
  match r with
  | Ok st => Ok (num_canvas st)
  | Fault f => Fault f
  end.

(** * Properties *)

(** ** The classification tables *)

Lemma isZeroWidth_VS16 : isZeroWidth VS16 = true.
Proof. reflexivity. Qed.

(** No upgrade-eligible code point is zero-width, and none is the
    selector. *)
Lemma isEmojiModifiable_not_zero_width (c : codepoint) :
  isEmojiModifiable c = true -> isZeroWidth c = false /\ (c =? 0xfe0f) = false.
Proof.
  unfold isEmojiModifiable, isZeroWidth. intros H. split; lia.
Qed.

(** No always-wide code point is zero-width, and none is the selector. *)
Lemma isFullwidthChar_not_zero_width (c : codepoint) :
  isFullwidthChar c = true -> isZeroWidth c = false /\ (c =? 0xfe0f) = false.
Proof.
  unfold isFullwidthChar, isZeroWidth. intros H. split; lia.
Qed.

(** The two tables overlap: exactly these code points are in both. *)
Lemma modifiable_and_fullwidth (c : codepoint) :
  isEmojiModifiable c = true /\ isFullwidthChar c = true <->
  c = 0x231a \/ c = 0x231b \/ (0x23e9 <= c <= 0x23ec) \/ c = 0x23f0 \/ c = 0x23f3.
Proof.
  split.
  - intros [H1 H2]. unfold isEmojiModifiable in H1.
    repeat (apply orb_prop in H1 as [H1|H1]);
      try (apply Z.eqb_eq in H1; subst c; vm_compute in H2;
           first [discriminate | lia]);
      unfold isFullwidthChar in H2; lia.
  - intros H.
    assert (In c [0x231a; 0x231b; 0x23e9; 0x23ea; 0x23eb; 0x23ec; 0x23f0; 0x23f3]) as Hin.
    { cbn [In]. lia. }
    cbn [In] in Hin. intuition (subst c; reflexivity).
Qed.

(** ** The width accumulator *)

Lemma displayWidth_loop_app (s1 s2 : jsstring) (st : WidthState) :
  displayWidth_loop (s1 ++ s2) st = displayWidth_loop s2 (displayWidth_loop s1 st).
Proof. apply fold_left_app. Qed.

(** A zero-width code point other than the selector is skipped: neither
    the width nor the lookback flag changes. *)
Lemma displayWidth_step_zero_width (st : WidthState) (z : codepoint) :
  isZeroWidth z = true -> z <> VS16 -> displayWidth_step st z = st.
Proof.
  intros Hz Hne. unfold displayWidth_step.
  destruct (Z.eqb_spec z 0xfe0f) as [->|_]; [done|].
  by rewrite Hz.
Qed.

(** The selector branch is taken before [isZeroWidth] is consulted. *)
Lemma displayWidth_step_VS16 (st : WidthState) :
  displayWidth_step st VS16 =
  if prevWasNarrowEmoji st then mkWidthState (w st + 1) false else st.
Proof. reflexivity. Qed.

Lemma displayWidth_step_narrow (st : WidthState) (c : codepoint) :
  isEmojiModifiable c = true -> isFullwidthChar c = false ->
  displayWidth_step st c = mkWidthState (w st + 1) true.
Proof.
  intros Hm Hf. destruct (isEmojiModifiable_not_zero_width c Hm) as [Hz Hs].
  unfold displayWidth_step. by rewrite Hs, Hz, Hf, Hm.
Qed.

Lemma displayWidth_step_wide (st : WidthState) (c : codepoint) :
  isFullwidthChar c = true ->
  displayWidth_step st c = mkWidthState (w st + 2) false.
Proof.
  intros Hf. destruct (isFullwidthChar_not_zero_width c Hf) as [Hz Hs].
  unfold displayWidth_step. by rewrite Hs, Hz, Hf.
Qed.

(** C4 as the specification states it fails: U+200D (zero width joiner)
    after the upgrade-eligible, single-width U+26A0 leaves the lookback
    flag set, and the selector that follows still widens U+26A0. *)
Lemma zero_width_does_not_clear_lookback :
  isEmojiModifiable 0x26a0 = true /\ isFullwidthChar 0x26a0 = false /\
  isZeroWidth 0x200d = true /\ 0x200d <> VS16 /\
  prevWasNarrowEmoji (displayWidth_step (mkWidthState 1 true) 0x200d) <> false /\
  displayWidth [0x26a0; 0x200d; 0xfe0f] = 2 /\
  displayWidth [0x26a0; 0x200d; 0xfe0f] <> 1.
Proof. vm_compute. repeat split; discriminate. Qed.

(** C4, amended: a zero-width code point other than the selector adds no
    column and leaves the lookback flag as it was; hence for an
    upgrade-eligible single-width [c] and any zero-width [z] the string
    [c z selector] has width 2: the upgrade fires across [z]. *)
Theorem zero_width_keeps_lookback (st : WidthState) (c z : codepoint) :
  isEmojiModifiable c = true -> isFullwidthChar c = false ->
  isZeroWidth z = true ->
  (z <> VS16 -> displayWidth_step st z = st) /\
  displayWidth [c; z; VS16] = 2.
Proof.
  intros Hm Hf Hz. split; [by apply displayWidth_step_zero_width|].
  unfold displayWidth, displayWidth_loop. cbn [fold_left].
  rewrite (displayWidth_step_narrow _ c Hm Hf).
  destruct (Z.eq_dec z VS16) as [->|Hne].
  - reflexivity.
  - by rewrite (displayWidth_step_zero_width _ z Hz Hne).
Qed.

Lemma zero_width_keeps_lookback_witness :
  (0x200d <> VS16 ->
   displayWidth_step (mkWidthState 1 true) 0x200d = mkWidthState 1 true) /\
  displayWidth [0x26a0; 0x200d; VS16] = 2.
Proof.
  apply (zero_width_keeps_lookback (mkWidthState 1 true) 0x26a0 0x200d);
    reflexivity.
Defined.

(** C5 as the specification states it fails for the selector, which
    [isZeroWidth] accepts: inserted after U+26A0 it widens the string. *)
Lemma inserting_selector_changes_width :
  isZeroWidth 0xfe0f = true /\
  displayWidth [0x26a0] = 1 /\
  displayWidth (take 1 [0x26a0] ++ 0xfe0f :: drop 1 [0x26a0]) = 2 /\
  displayWidth (take 1 [0x26a0] ++ 0xfe0f :: drop 1 [0x26a0]) <> displayWidth [0x26a0].
Proof. vm_compute. repeat split; discriminate. Qed.

Lemma displayWidth_loop_skip (s1 s2 : jsstring) (z : codepoint) (st : WidthState) :
  isZeroWidth z = true -> z <> VS16 ->
  displayWidth_loop (s1 ++ z :: s2) st = displayWidth_loop (s1 ++ s2) st.
Proof.
  intros Hz Hne. rewrite !displayWidth_loop_app.
  change (displayWidth_loop (z :: s2) ?t)
    with (displayWidth_loop s2 (displayWidth_step t z)).
  by rewrite displayWidth_step_zero_width.
Qed.

(** C5, amended: inserting a zero-width code point other than the
    presentation selector at any position of a string leaves
    [displayWidth] unchanged. *)
Theorem displayWidth_insert_zero_width (s : jsstring) (z : codepoint) (i : nat) :
  isZeroWidth z = true -> z <> VS16 ->
  displayWidth (take i s ++ z :: drop i s) = displayWidth s.
Proof.
  intros Hz Hne. unfold displayWidth.
  rewrite displayWidth_loop_skip by done. by rewrite take_drop.
Qed.

Lemma displayWidth_insert_zero_width_witness :
  displayWidth (take 1 [0x1f468; 0x1f4bb] ++ 0x200d :: drop 1 [0x1f468; 0x1f4bb])
  = displayWidth [0x1f468; 0x1f4bb].
Proof.
  apply (displayWidth_insert_zero_width [0x1f468; 0x1f4bb] 0x200d 1);
    [reflexivity | discriminate].
Defined.

(** C6 as the specification states it fails: U+231A (watch) is in the
    upgrade table and also always wide, so alone it already counts 2. *)
Lemma modifiable_alone_not_always_1 :
  isEmojiModifiable 0x231a = true /\
  displayWidth [0x231a] = 2 /\ displayWidth [0x231a] <> 1.
Proof. vm_compute. repeat split; discriminate. Qed.

(** C6, amended: for every upgrade-eligible [c], [c] followed by the
    selector has width 2; [c] alone has width 1 unless [c] is also in the
    always-wide table, in which case it has width 2. *)
Theorem displayWidth_modifiable (c : codepoint) :
  isEmojiModifiable c = true ->
  displayWidth [c; VS16] = 2 /\
  displayWidth [c] = (if isFullwidthChar c then 2 else 1).
Proof.
  intros Hm. unfold displayWidth, displayWidth_loop. cbn [fold_left].
  destruct (isFullwidthChar c) eqn:Hf.
  - by rewrite (displayWidth_step_wide _ c Hf).
  - by rewrite (displayWidth_step_narrow _ c Hm Hf).
Qed.

Lemma displayWidth_modifiable_witness :
  displayWidth [0x26a0; VS16] = 2 /\
  displayWidth [0x26a0] = (if isFullwidthChar 0x26a0 then 2 else 1).
Proof. apply (displayWidth_modifiable 0x26a0); reflexivity. Defined.

(** ** Arrays and grids *)

Lemma js_index_Some {A : Type} (arr : list A) (i : Z) (a : A) :
  js_index arr i = Some a <-> 0 <= i /\ arr !! Z.to_nat i = Some a.
Proof.
  unfold js_index. destruct (Z.ltb_spec i 0); split.
  - discriminate.
  - intros [? _]. lia.
  - intros. split; [lia | done].
  - by intros [_ ?].
Qed.

Lemma js_index_in_range {A : Type} (arr : list A) (i : Z) :
  0 <= i < Z.of_nat (length arr) -> exists a, js_index arr i = Some a.
Proof.
  intros Hi. destruct (lookup_lt_is_Some_2 arr (Z.to_nat i)) as [a Ha]; [lia|].
  exists a. apply js_index_Some. split; [lia | done].
Qed.

Lemma js_index_out_of_range {A : Type} (arr : list A) (i : Z) :
  i < 0 \/ Z.of_nat (length arr) <= i -> js_index arr i = None.
Proof.
  intros Hi. unfold js_index. destruct (Z.ltb_spec i 0); [done|].
  apply lookup_ge_None. lia.
Qed.

(** Reading back the element just assigned. *)
Lemma js_index_assign_eq {A : Type} (arr : Column A) (i : Z) (v : A) :
  0 <= i -> js_index (js_assign arr i v) i = Some (Some v).
Proof.
  intros Hi. unfold js_index, js_assign.
  destruct (Z.ltb_spec i 0); [lia|].
  destruct (Nat.ltb_spec (Z.to_nat i) (length arr)).
  - by apply list_lookup_insert_eq.
  - rewrite lookup_app_r by lia.
    rewrite lookup_app_r by (rewrite length_replicate; lia).
    rewrite length_replicate.
    by replace (Z.to_nat i - length arr - (Z.to_nat i - length arr))%nat with 0%nat by lia.
Qed.

(** An assignment leaves every other element as it reads: a hole made by
    extending the array reads [undefined], as the position did before. *)
Lemma js_index_assign_ne {A : Type} (arr : Column A) (i j : Z) (v : A) :
  i <> j -> mjoin (js_index (js_assign arr i v) j) = mjoin (js_index arr j).
Proof.
  intros Hne. unfold js_index, js_assign.
  destruct (Z.ltb_spec j 0); [done|].
  destruct (Z.ltb_spec i 0); [done|].
  destruct (Nat.ltb_spec (Z.to_nat i) (length arr)).
  - rewrite list_lookup_insert_ne by lia. done.
  - destruct (decide (Z.to_nat j < length arr)%nat).
    + by rewrite lookup_app_l by lia.
    + rewrite (lookup_ge_None_2 arr (Z.to_nat j)) by lia.
      rewrite lookup_app_r by lia.
      destruct (decide (Z.to_nat j - length arr < Z.to_nat i - length arr)%nat).
      * rewrite lookup_app_l by (rewrite length_replicate; lia).
        by rewrite lookup_replicate_2 by lia.
      * rewrite lookup_app_r by (rewrite length_replicate; lia).
        rewrite length_replicate.
        rewrite lookup_ge_None_2; [done|]. simpl. lia.
Qed.

(** An assignment inside the array keeps its length. *)
Lemma length_js_assign {A : Type} (arr : Column A) (i : Z) (v : A) :
  i < Z.of_nat (length arr) -> length (js_assign arr i v) = length arr.
Proof.
  intros Hi. unfold js_assign. destruct (Z.ltb_spec i 0); [done|].
  destruct (Nat.ltb_spec (Z.to_nat i) (length arr)); [|lia].
  apply length_insert.
Qed.

Lemma grid_width_cell_set {A : Type} (g : Grid A) (cx y : Z) (v : A) :
  grid_width (cell_set g cx y v) = grid_width g.
Proof.
  unfold cell_set, grid_width. destruct (js_index g cx); [|done].
  by rewrite length_insert.
Qed.

Lemma in_bounds_cell_set {A : Type} (g : Grid A) (cx y : Z) (v : A) (h cx' y' : Z) :
  in_bounds (cell_set g cx y v) h cx' y' = in_bounds g h cx' y'.
Proof. unfold in_bounds. by rewrite grid_width_cell_set. Qed.

Lemma in_bounds_true {A : Type} (g : Grid A) (h cx y : Z) :
  in_bounds g h cx y = true <-> 0 <= cx < grid_width g /\ 0 <= y < h.
Proof. unfold in_bounds. lia. Qed.

Lemma cell_get_set_eq {A : Type} (g : Grid A) (cx y : Z) (v : A) :
  0 <= cx < grid_width g -> 0 <= y ->
  cell_get (cell_set g cx y v) cx y = Some v.
Proof.
  intros Hcx Hy. unfold cell_get, cell_set.
  destruct (js_index_in_range g cx Hcx) as [col Hcol]. rewrite Hcol.
  assert (js_index (<[Z.to_nat cx:=js_assign col y v]> g) cx
          = Some (js_assign col y v)) as ->.
  { apply js_index_Some. split; [lia|].
    apply list_lookup_insert_eq. unfold grid_width in Hcx. lia. }
  by rewrite js_index_assign_eq.
Qed.

Lemma cell_get_set_ne {A : Type} (g : Grid A) (cx y : Z) (v : A) (cx' y' : Z) :
  cx' <> cx \/ y' <> y ->
  cell_get (cell_set g cx y v) cx' y' = cell_get g cx' y'.
Proof.
  intros Hne. unfold cell_get, cell_set.
  destruct (js_index g cx) as [col|] eqn:Hcol; [|done].
  apply js_index_Some in Hcol as [Hcx Hcol].
  destruct (decide (cx' = cx)) as [->|Hc].
  - assert (js_index (<[Z.to_nat cx:=js_assign col y v]> g) cx
            = Some (js_assign col y v)) as ->.
    { apply js_index_Some. split; [lia|].
      apply list_lookup_insert_eq. by eapply lookup_lt_Some. }
    assert (js_index g cx = Some col) as -> by (by apply js_index_Some).
    apply js_index_assign_ne. destruct Hne; congruence.
  - unfold js_index. destruct (cx' <? 0) eqn:Hneg; [done|].
    rewrite list_lookup_insert_ne by lia. done.
Qed.

(** ** The grid text writer: what one iteration does *)

Lemma is_space_true (cell : option jsstring) :
  is_space cell = true <-> cell = Some [0x20].
Proof.
  destruct cell as [[|c [|? ?]]|]; simpl; split; try done.
  - intros ->%Z.eqb_eq. done.
  - intros [= ->]. done.
Qed.

Section DrawStep.

Context {CharRole : Type}.
Implicit Types (a : DrawArgs CharRole) (st : DrawState CharRole).

Lemma draw_loop_app a (t1 t2 : jsstring) st :
  draw_loop a (t1 ++ t2) st = draw_loop a t2 (draw_loop a t1 st).
Proof. apply fold_left_app. Qed.

Lemma draw_loop_snoc a (t : jsstring) (code : codepoint) st :
  draw_loop a (t ++ [code]) st = draw_step a (draw_loop a t st) code.
Proof. by rewrite draw_loop_app. Qed.

Lemma draw_step_VS16 a st : draw_step a st VS16 = draw_selector a st VS16.
Proof. reflexivity. Qed.

Lemma draw_step_zero_width a st (z : codepoint) :
  isZeroWidth z = true -> z <> VS16 -> draw_step a st z = st.
Proof.
  intros Hz Hne. unfold draw_step.
  destruct (Z.eqb_spec z 0xfe0f) as [->|_]; [done|]. by rewrite Hz.
Qed.

Lemma draw_step_glyph a st (code : codepoint) :
  (code =? 0xfe0f) = false -> isZeroWidth code = false ->
  draw_step a st code = draw_glyph a st code.
Proof. intros H1 H2. unfold draw_step. by rewrite H1, H2. Qed.

(** The three kinds of iteration. *)
Lemma draw_step_cases a st (code : codepoint) :
  (code = VS16 /\ draw_step a st code = draw_selector a st VS16) \/
  (code <> VS16 /\ isZeroWidth code = true /\ draw_step a st code = st) \/
  ((code =? 0xfe0f) = false /\ isZeroWidth code = false /\
   draw_step a st code = draw_glyph a st code).
Proof.
  unfold draw_step. destruct (Z.eqb_spec code 0xfe0f) as [->|Hne].
  - by left.
  - destruct (isZeroWidth code) eqn:Hz; right; [left|right]; done.
Qed.

(** The cells of the character grid after one iteration: a cell is left
    as it was, or it is the glyph cell, the cell the selector is appended
    to, or a padding cell. *)
Lemma draw_step_cell a st (code : codepoint) (cx r : Z) :
  let st' := draw_step a st code in
  cell_get (canvas st') cx r = cell_get (canvas st) cx r \/
  (r = arg_y a /\ cx = arg_x a + offset st /\
   (code =? 0xfe0f) = false /\ isZeroWidth code = false /\
   glyph_writable a st = true /\
   cell_get (canvas st') cx r = Some [code]) \/
  (r = arg_y a /\ cx = lastWrittenCx st /\ code = VS16 /\
   in_bounds (canvas st) (arg_h a) cx r = true /\
   cell_get (canvas st') cx r
   = Some (default [] (cell_get (canvas st) cx r) ++ [VS16])) \/
  (r = arg_y a /\ cx = arg_x a + offset st /\ code = VS16 /\
   lastWasFullwidth st = false /\
   cell_get (canvas st') cx r = Some CJK_PAD) \/
  (r = arg_y a /\ cx = arg_x a + offset st + 1 /\
   isFullwidthChar code = true /\ glyph_writable a st = true /\
   cell_get (canvas st') cx r = Some CJK_PAD).
Proof.
  intros st'. subst st'.
  destruct (draw_step_cases a st code) as [[-> ->]|[(_ & _ & ->)|(Hs & Hz & ->)]].
  - (* selector *)
    unfold draw_selector.
    destruct (in_bounds (canvas st) (arg_h a) (lastWrittenCx st) (arg_y a)) eqn:Hlw;
    destruct (lastWasFullwidth st) eqn:Hfw; cbn [negb canvas].
    + destruct (decide (cx = lastWrittenCx st /\ r = arg_y a)) as [[-> ->]|Hne].
      * right; right; left. apply in_bounds_true in Hlw as Hb.
        rewrite cell_get_set_eq by lia. done.
      * left. apply cell_get_set_ne. lia.
    + rewrite in_bounds_cell_set.
      destruct (in_bounds (canvas st) (arg_h a) (arg_x a + offset st) (arg_y a)) eqn:Hpx.
      * destruct (decide (cx = arg_x a + offset st /\ r = arg_y a)) as [[-> ->]|Hne].
        { right; right; right; left. apply in_bounds_true in Hpx as Hb.
          rewrite cell_get_set_eq by (rewrite ?grid_width_cell_set; lia). done. }
        rewrite cell_get_set_ne by lia.
        destruct (decide (cx = lastWrittenCx st /\ r = arg_y a)) as [[-> ->]|Hne'].
        { right; right; left. apply in_bounds_true in Hlw as Hb.
          rewrite cell_get_set_eq by lia. done. }
        left. apply cell_get_set_ne. lia.
      * destruct (decide (cx = lastWrittenCx st /\ r = arg_y a)) as [[-> ->]|Hne'].
        { right; right; left. apply in_bounds_true in Hlw as Hb.
          rewrite cell_get_set_eq by lia. done. }
        left. apply cell_get_set_ne. lia.
    + by left.
    + destruct (in_bounds (canvas st) (arg_h a) (arg_x a + offset st) (arg_y a)) eqn:Hpx;
        [|by left].
      destruct (decide (cx = arg_x a + offset st /\ r = arg_y a)) as [[-> ->]|Hne].
      * right; right; right; left. apply in_bounds_true in Hpx as Hb.
        rewrite cell_get_set_eq by lia. done.
      * left. apply cell_get_set_ne. lia.
  - by left.
  - (* ordinary character *)
    unfold draw_glyph.
    destruct (glyph_writable a st) eqn:Hw.
    2:{ left. by destruct (isFullwidthChar code). }
    assert (in_bounds (canvas st) (arg_h a) (arg_x a + offset st) (arg_y a) = true) as Hcx.
    { unfold glyph_writable in Hw. by apply andb_true_iff in Hw as [? _]. }
    apply in_bounds_true in Hcx as Hb.
    destruct (isFullwidthChar code) eqn:Hfw; cbn [canvas].
    + rewrite in_bounds_cell_set.
      destruct (in_bounds (canvas st) (arg_h a) (arg_x a + (offset st + 1)) (arg_y a)) eqn:Hpx.
      * destruct (decide (cx = arg_x a + offset st + 1 /\ r = arg_y a)) as [[-> ->]|Hne].
        { right; right; right; right. apply in_bounds_true in Hpx as Hb'.
          replace (arg_x a + (offset st + 1)) with (arg_x a + offset st + 1) by lia.
          rewrite cell_get_set_eq by (rewrite ?grid_width_cell_set; lia). done. }
        rewrite cell_get_set_ne by lia.
        destruct (decide (cx = arg_x a + offset st /\ r = arg_y a)) as [[-> ->]|Hne'].
        { right; left. rewrite cell_get_set_eq by lia. done. }
        left. apply cell_get_set_ne. lia.
      * destruct (decide (cx = arg_x a + offset st /\ r = arg_y a)) as [[-> ->]|Hne'].
        { right; left. rewrite cell_get_set_eq by lia. done. }
        left. apply cell_get_set_ne. lia.
    + destruct (decide (cx = arg_x a + offset st /\ r = arg_y a)) as [[-> ->]|Hne'].
      { right; left. rewrite cell_get_set_eq by lia. done. }
      left. apply cell_get_set_ne. lia.
Qed.

(** The locals after one iteration. *)
Lemma draw_step_offset a st (code : codepoint) :
  offset st <= offset (draw_step a st code) <= offset st + 2.
Proof.
  unfold draw_step, draw_selector, draw_glyph.
  repeat case_match; cbn [offset]; lia.
Qed.

Lemma draw_step_lastWrittenCx a st (code : codepoint) :
  let st' := draw_step a st code in
  lastWrittenCx st' = lastWrittenCx st \/
  ((code =? 0xfe0f) = false /\ isZeroWidth code = false /\
   glyph_writable a st = true /\
   lastWrittenCx st' = arg_x a + offset st /\
   offset st < offset st').
Proof.
  intros st'. subst st'.
  destruct (draw_step_cases a st code) as [[-> ->]|[(_ & _ & ->)|(Hs & Hz & ->)]].
  - left. unfold draw_selector. by repeat case_match.
  - by left.
  - unfold draw_glyph. destruct (glyph_writable a st) eqn:Hw.
    + right. repeat split; try done; case_match; cbn; lia.
    + left. by case_match.
Qed.

End DrawStep.

Section DrawFrame.

Context {CharRole : Type}.
Implicit Types (a : DrawArgs CharRole) (st : DrawState CharRole).

(** The style grid after one iteration. *)
Lemma draw_step_role_cell a st (code : codepoint) (cx r : Z) :
  let st' := draw_step a st code in
  role_get (roleCanvas st') cx r = role_get (roleCanvas st) cx r \/
  (r = arg_y a /\ cx = arg_x a + offset st /\ glyph_writable a st = true /\
   (code =? 0xfe0f) = false /\ isZeroWidth code = false /\
   role_get (roleCanvas st') cx r = arg_role a).
Proof.
  intros st'. subst st'.
  destruct (draw_step_cases a st code) as [[-> ->]|[(_ & _ & ->)|(Hs & Hz & ->)]].
  - left. unfold draw_selector. by repeat case_match.
  - by left.
  - assert (roleCanvas (draw_glyph a st code)
            = if glyph_writable a st
              then tag_role (roleCanvas st) (arg_role a) (arg_x a + offset st) (arg_y a)
              else roleCanvas st) as ->.
    { unfold draw_glyph. by repeat case_match. }
    destruct (glyph_writable a st) eqn:Hw; [|by left].
    assert (in_bounds (canvas st) (arg_h a) (arg_x a + offset st) (arg_y a) = true) as Hcx.
    { unfold glyph_writable in Hw. by apply andb_true_iff in Hw as [? _]. }
    apply in_bounds_true in Hcx as Hb.
    unfold tag_role.
    destruct (roleCanvas st) as [g|] eqn:Hrc; [|by left].
    destruct (arg_role a) as [role|] eqn:Hrole; [|by left].
    destruct ((arg_x a + offset st <? grid_width g) && (arg_y a <? grid_height g)) eqn:Hin;
      [|by left].
    cbn [role_get].
    destruct (decide (cx = arg_x a + offset st /\ r = arg_y a)) as [[-> ->]|Hne].
    + right. rewrite cell_get_set_eq by lia. done.
    + left. apply cell_get_set_ne. lia.
Qed.

Lemma draw_step_roleCanvas_is_Some a st (code : codepoint) :
  is_Some (roleCanvas (draw_step a st code)) <-> is_Some (roleCanvas st).
Proof.
  unfold draw_step, draw_selector, draw_glyph, tag_role.
  repeat case_match; cbn [roleCanvas]; subst; split; intros [? ?]; eauto; done.
Qed.

(** One iteration leaves the rows other than [y] alone. *)
Lemma draw_step_other_rows a st (code : codepoint) (cx r : Z) :
  r <> arg_y a ->
  cell_get (canvas (draw_step a st code)) cx r = cell_get (canvas st) cx r /\
  role_get (roleCanvas (draw_step a st code)) cx r = role_get (roleCanvas st) cx r.
Proof.
  intros Hr. split.
  - destruct (draw_step_cell a st code cx r) as [H|[H|[H|[H|H]]]]; [done|..];
      by destruct H as [? _].
  - destruct (draw_step_role_cell a st code cx r) as [H|H]; [done|].
    by destruct H as [? _].
Qed.

Lemma draw_loop_other_rows a (text : jsstring) st (cx r : Z) :
  r <> arg_y a ->
  cell_get (canvas (draw_loop a text st)) cx r = cell_get (canvas st) cx r /\
  role_get (roleCanvas (draw_loop a text st)) cx r = role_get (roleCanvas st) cx r.
Proof.
  intros Hr. revert st. induction text as [|code text IH]; intros st; [done|].
  change (draw_loop a (code :: text) st)
    with (draw_loop a text (draw_step a st code)).
  destruct (IH (draw_step a st code)) as [-> ->].
  by apply draw_step_other_rows.
Qed.

(** C9: a call changes no cell, of the character grid or of the style
    grid, whose row differs from its row argument. *)
Theorem drawCJKText_other_rows_unchanged (c : Grid jsstring) (x y : Z)
    (text : jsstring) (force : bool) (rc : option (Grid CharRole))
    (role : option CharRole) (cx r : Z) :
  r <> y ->
  cell_get (canvas (drawCJKText c x y text force rc role)) cx r = cell_get c cx r /\
  role_get (roleCanvas (drawCJKText c x y text force rc role)) cx r = role_get rc cx r.
Proof.
  intros Hr. unfold drawCJKText.
  by apply (draw_loop_other_rows (draw_args c x y force role) text (draw_init c rc)).
Qed.

Lemma glyph_writable_false a st :
  glyph_writable a st = false <->
  in_bounds (canvas st) (arg_h a) (arg_x a + offset st) (arg_y a) = false \/
  (forceOverwrite a = false /\
   cell_get (canvas st) (arg_x a + offset st) (arg_y a) <> Some [0x20]).
Proof.
  unfold glyph_writable.
  destruct (in_bounds (canvas st) (arg_h a) (arg_x a + offset st) (arg_y a));
    cbn [andb]; [|by split; [left|]].
  destruct (forceOverwrite a); cbn [orb].
  - split; [done | by intros [?|[? _]]].
  - rewrite <- is_space_true.
    destruct (is_space _); split; [done | by intros [?|[_ ?]] | by right | done].
Qed.

(** An ordinary character whose cell is writable is written there. *)
Lemma glyph_written_cell a st (code : codepoint) :
  (code =? 0xfe0f) = false -> isZeroWidth code = false ->
  glyph_writable a st = true ->
  cell_get (canvas (draw_step a st code)) (arg_x a + offset st) (arg_y a)
  = Some [code].
Proof.
  intros Hs Hz Hw. rewrite draw_step_glyph by done.
  assert (in_bounds (canvas st) (arg_h a) (arg_x a + offset st) (arg_y a) = true) as Hb.
  { unfold glyph_writable in Hw. by apply andb_true_iff in Hw as [? _]. }
  apply in_bounds_true in Hb.
  unfold draw_glyph. rewrite Hw.
  destruct (isFullwidthChar code); cbn [canvas].
  - destruct (in_bounds _ _ _ _); rewrite ?cell_get_set_ne by lia;
      by rewrite cell_get_set_eq by lia.
  - by rewrite cell_get_set_eq by lia.
Qed.

(** C7: when the write of an always-wide glyph is blocked (its cell is
    out of bounds, or it is not blank while [forceOverwrite] is off), the
    iteration advances the offset by two columns and writes nothing, no
    padding sentinel either. *)
Theorem blocked_wide_glyph_advances_two (c : Grid jsstring) (x y : Z)
    (force : bool) (rc : option (Grid CharRole)) (role : option CharRole)
    (pre : jsstring) (code : codepoint) :
  let a := draw_args c x y force role in
  let st := draw_loop a pre (draw_init c rc) in
  let st' := draw_loop a (pre ++ [code]) (draw_init c rc) in
  isFullwidthChar code = true ->
  in_bounds (canvas st) (grid_height c) (x + offset st) y = false \/
  (force = false /\ cell_get (canvas st) (x + offset st) y <> Some [0x20]) ->
  offset st' = offset st + 2 /\
  canvas st' = canvas st /\
  roleCanvas st' = roleCanvas st /\
  lastWrittenCx st' = lastWrittenCx st.
Proof.
  intros a st st' Hfw Hblocked. subst st'. rewrite draw_loop_snoc. fold st.
  apply (glyph_writable_false a st) in Hblocked as Hw.
  destruct (isFullwidthChar_not_zero_width code Hfw) as [Hz Hs].
  rewrite draw_step_glyph by done.
  unfold draw_glyph. rewrite Hw, Hfw. cbn. repeat split; lia.
Qed.

End DrawFrame.

Lemma drawCJKText_other_rows_unchanged_witness :
  1 <> 0 /\
  cell_get (canvas (drawCJKText (CharRole := unit) (blank_canvas 3 2) 0 0
                      [0x4e2d] false None None)) 0 1
  = cell_get (blank_canvas 3 2) 0 1 /\
  role_get (roleCanvas (drawCJKText (CharRole := unit) (blank_canvas 3 2) 0 0
                      [0x4e2d] false None None)) 0 1
  = role_get None 0 1.
Proof.
  split; [lia|].
  apply (drawCJKText_other_rows_unchanged (CharRole := unit)
           (blank_canvas 3 2) 0 0 [0x4e2d] false None None 0 1).
  lia.
Defined.

Lemma blocked_wide_glyph_advances_two_witness :
  let c := row_canvas [[0x41]; [0x58]; [0x20]; [0x20]] in
  let a := draw_args (CharRole := unit) c 0 0 false None in
  let st := draw_loop a [0x42] (draw_init c None) in
  let st' := draw_loop a ([0x42] ++ [0x4e2d]) (draw_init c None) in
  offset st' = offset st + 2 /\
  canvas st' = canvas st /\
  roleCanvas st' = roleCanvas st /\
  lastWrittenCx st' = lastWrittenCx st.
Proof.
  apply (blocked_wide_glyph_advances_two (CharRole := unit)
           (row_canvas [[0x41]; [0x58]; [0x20]; [0x20]]) 0 0 false None None
           [0x42] 0x4e2d);
    [reflexivity | right; split; [reflexivity | vm_compute; discriminate]].
Defined.

Section DrawInvariants.

Context {CharRole : Type}.
Implicit Types (a : DrawArgs CharRole) (st : DrawState CharRole).

Lemma draw_step_offset_glyph a st (code : codepoint) :
  (code =? 0xfe0f) = false -> isZeroWidth code = false ->
  offset (draw_step a st code)
  = offset st + (if isFullwidthChar code then 2 else 1).
Proof.
  intros Hs Hz. rewrite draw_step_glyph by done. unfold draw_glyph.
  destruct (isFullwidthChar code); cbn [offset]; lia.
Qed.

Lemma draw_step_offset_selector a st :
  offset (draw_step a st VS16)
  = offset st + (if lastWasFullwidth st then 0 else 1).
Proof.
  rewrite draw_step_VS16. unfold draw_selector.
  destruct (lastWasFullwidth st); cbn [negb offset]; lia.
Qed.

Lemma glyph_writable_in_bounds a st :
  glyph_writable a st = true ->
  0 <= arg_x a + offset st < grid_width (canvas st) /\ 0 <= arg_y a < arg_h a.
Proof.
  unfold glyph_writable. intros [H _]%andb_true_iff. by apply in_bounds_true.
Qed.

Lemma glyph_writable_blank a st :
  forceOverwrite a = false -> glyph_writable a st = true ->
  cell_get (canvas st) (arg_x a + offset st) (arg_y a) = Some [0x20].
Proof.
  unfold glyph_writable. intros -> [_ H]%andb_true_iff. by apply is_space_true.
Qed.

Lemma no_overwrite_inv_init (c0 : Grid jsstring) a (rc : option (Grid CharRole)) :
  no_overwrite_inv c0 a (draw_init c0 rc).
Proof.
  unfold no_overwrite_inv, draw_init. cbn. split; [lia|]. split; [done|]. auto.
Qed.

Lemma no_overwrite_inv_step (c0 : Grid jsstring) a st (code : codepoint) :
  forceOverwrite a = false ->
  no_overwrite_inv c0 a st -> no_overwrite_inv c0 a (draw_step a st code).
Proof.
  intros Hforce (Hlw & Hahead & Hkept).
  pose proof (draw_step_offset a st code) as Hoff.
  split; [|split].
  - intros Hpos.
    destruct (draw_step_lastWrittenCx a st code) as [Heq|(Hs & Hz & Hw & Heq & Hlt)].
    + rewrite Heq in *. destruct (Hlw Hpos). split; [lia | done].
    + rewrite Heq. split; [lia|].
      rewrite <- Hahead by lia. by apply glyph_writable_blank.
  - intros cx r Hcx.
    destruct (draw_step_cell a st code cx r)
      as [H|[(_ & -> & Hs & Hz & _)|[(-> & -> & _ & Hb & _)|[(_ & -> & -> & Hfw & _)|
          (_ & -> & Hfw & Hw & _)]]]].
    + rewrite H. apply Hahead. lia.
    + rewrite (draw_step_offset_glyph a st code Hs Hz) in Hcx.
      destruct (isFullwidthChar code); lia.
    + apply in_bounds_true in Hb. destruct Hlw; lia.
    + rewrite draw_step_offset_selector, Hfw in Hcx. lia.
    + destruct (isFullwidthChar_not_zero_width code Hfw) as [Hz Hs].
      rewrite (draw_step_offset_glyph a st code Hs Hz), Hfw in Hcx. lia.
  - intros cx r s Hc0 Hs.
    destruct (draw_step_cell a st code cx r)
      as [H|[(-> & -> & _ & _ & Hw & _)|[(-> & -> & _ & Hb & _)|[(_ & _ & _ & _ & H)|
          (_ & _ & _ & _ & H)]]]].
    + rewrite H. by apply Hkept.
    + exfalso. apply (glyph_writable_blank a st Hforce) in Hw.
      rewrite Hahead in Hw by lia. congruence.
    + exfalso. apply in_bounds_true in Hb. destruct Hlw as [_ Hblank]; [lia|].
      congruence.
    + by right.
    + by right.
Qed.

Lemma no_overwrite_inv_loop (c0 : Grid jsstring) a (text : jsstring) st :
  forceOverwrite a = false ->
  no_overwrite_inv c0 a st -> no_overwrite_inv c0 a (draw_loop a text st).
Proof.
  intros Hforce. revert st. induction text as [|code text IH]; intros st Hinv; [done|].
  apply IH. by apply no_overwrite_inv_step.
Qed.

(** The last written column is a column this call wrote a glyph into. *)
Lemma lastWrittenCx_wrote a (st0 : DrawState CharRole) (pre : jsstring) :
  let st := draw_loop a pre st0 in
  lastWrittenCx st = lastWrittenCx st0 \/
  wrote_glyph_at a st0 pre (lastWrittenCx st).
Proof.
  induction pre as [|code pre IH] using rev_ind; [by left|].
  cbn zeta in *. rewrite draw_loop_snoc.
  destruct (draw_step_lastWrittenCx a (draw_loop a pre st0) code)
    as [Heq|(Hs & Hz & Hw & Heq & _)].
  - rewrite Heq. destruct IH as [IH|(pre1 & g & pre2 & -> & Hg)]; [by left|].
    right. exists pre1, g, (pre2 ++ [code]). split; [|done].
    by rewrite <- app_assoc.
  - right. rewrite Heq. by exists pre, code, [].
Qed.

Lemma selectors_follow_written_snoc a (pre : jsstring) (code : codepoint) st :
  selectors_follow_written a (pre ++ [code]) st
  = selectors_follow_written a pre st &&
    (if code =? 0xfe0f then selector_after_written a (draw_loop a pre st) else true).
Proof.
  revert st. induction pre as [|c pre IH]; intros st.
  - cbn. by rewrite andb_true_r.
  - cbn [app selectors_follow_written]. rewrite IH. by rewrite andb_assoc.
Qed.


(** The selector is appended only to a cell into which this same call
    wrote a glyph: a cell other than the one at the cursor that differs
    after the selector is processed is in row [y], was written by an
    earlier iteration of this call, and holds what it held followed by
    the selector; the style grid is not touched. *)
Theorem selector_appends_to_written_cell (c : Grid jsstring) (x y : Z)
    (force : bool) (rc : option (Grid CharRole)) (role : option CharRole)
    (pre : jsstring) (cx r : Z) :
  let a := draw_args c x y force role in
  let st := draw_loop a pre (draw_init c rc) in
  let st' := draw_loop a (pre ++ [VS16]) (draw_init c rc) in
  cx <> x + offset st ->
  cell_get (canvas st') cx r <> cell_get (canvas st) cx r ->
  r = y /\ roleCanvas st' = roleCanvas st /\
  wrote_glyph_at a (draw_init c rc) pre cx /\
  cell_get (canvas st') cx r
  = Some (default [] (cell_get (canvas st) cx r) ++ [VS16]).
Proof.
  intros a st st' Hcx Hch. subst st'. rewrite draw_loop_snoc in *. fold st in Hch |- *.
  assert (roleCanvas (draw_step a st VS16) = roleCanvas st) as Hrole.
  { rewrite draw_step_VS16. unfold draw_selector. by repeat case_match. }
  destruct (draw_step_cell a st VS16 cx r)
    as [H|[(_ & _ & Hs & _)|[(-> & -> & _ & Hb & H)|[(_ & -> & _)|
        (_ & _ & Hfw & _)]]]]; [done|done| |done|done].
  split; [done|]. split; [done|]. split; [|done].
  apply in_bounds_true in Hb.
  destruct (lastWrittenCx_wrote a (draw_init c rc) pre) as [Heq|Hw]; [|done].
  fold st in Heq. cbn in Heq. lia.
Qed.

End DrawInvariants.

(** ** Checked accesses *)

Lemma checked_get_cases {A : Type} (g : Grid A) (cx y : Z) :
  0 <= cx < grid_width g ->
  checked_get g cx y = Ok (cell_get g cx y) \/
  checked_get g cx y = Fault OutOfRange.
Proof.
  intros Hcx. unfold checked_get, cell_get.
  destruct (js_index_in_range g cx Hcx) as [col ->].
  destruct (row_in_column col y); [by left | by right].
Qed.

Lemma checked_set_cases {A : Type} (g : Grid A) (cx y : Z) (v : A) :
  0 <= cx < grid_width g ->
  checked_set g cx y v = Ok (cell_set g cx y v) \/
  checked_set g cx y v = Fault OutOfRange.
Proof.
  intros Hcx. unfold checked_set.
  destruct (js_index_in_range g cx Hcx) as [col ->].
  destruct (row_in_column col y); [by left | by right].
Qed.

Lemma column_height {A : Type} (g : Grid A) (h cx y : Z) (col : Column A) :
  Forall (fun col => Z.of_nat (length col) = h) g ->
  js_index g cx = Some col -> 0 <= y < h -> row_in_column col y = true.
Proof.
  intros Hg [_ Hcol]%js_index_Some Hy.
  rewrite Forall_lookup in Hg. specialize (Hg _ _ Hcol). cbn in Hg.
  unfold row_in_column. lia.
Qed.

Lemma checked_get_in_bounds {A : Type} (g : Grid A) (h cx y : Z) :
  Forall (fun col => Z.of_nat (length col) = h) g ->
  in_bounds g h cx y = true ->
  checked_get g cx y = Ok (cell_get g cx y).
Proof.
  intros Hg [Hcx Hy]%in_bounds_true. unfold checked_get, cell_get.
  destruct (js_index_in_range g cx Hcx) as [col Hcol]. rewrite Hcol.
  by rewrite (column_height g h cx y col).
Qed.

Lemma checked_set_in_bounds {A : Type} (g : Grid A) (h cx y : Z) (v : A) :
  Forall (fun col => Z.of_nat (length col) = h) g ->
  in_bounds g h cx y = true ->
  checked_set g cx y v = Ok (cell_set g cx y v).
Proof.
  intros Hg [Hcx Hy]%in_bounds_true. unfold checked_set.
  destruct (js_index_in_range g cx Hcx) as [col Hcol]. rewrite Hcol.
  by rewrite (column_height g h cx y col).
Qed.

(** A write inside the grid keeps the height of every column. *)
Lemma cell_set_heights {A : Type} (g : Grid A) (h cx y : Z) (v : A) :
  Forall (fun col => Z.of_nat (length col) = h) g ->
  y < h ->
  Forall (fun col => Z.of_nat (length col) = h) (cell_set g cx y v).
Proof.
  intros Hg Hy. unfold cell_set.
  destruct (js_index g cx) as [col|] eqn:Hcol; [|done].
  apply js_index_Some in Hcol as [_ Hcol].
  apply Forall_insert; [done|].
  rewrite Forall_lookup in Hg. specialize (Hg _ _ Hcol). cbn in Hg.
  rewrite length_js_assign by lia. done.
Qed.

Lemma rectangular_heights {A : Type} (g : Grid A) (h : Z) :
  Forall (fun col => Z.of_nat (length col) = h) g -> g <> [] ->
  grid_height g = h.
Proof. intros Hg Hne. destruct g as [|col g]; [done|]. by inversion Hg. Qed.

Lemma cell_set_rectangular {A : Type} (g : Grid A) (cx y : Z) (v : A) :
  rectangular g -> y < grid_height g ->
  rectangular (cell_set g cx y v) /\
  grid_height (cell_set g cx y v) = grid_height g.
Proof.
  intros Hg Hy.
  destruct (decide (g = [])) as [->|Hne].
  { unfold cell_set. by destruct (js_index [] cx). }
  pose proof (cell_set_heights g (grid_height g) cx y v Hg Hy) as Hg'.
  assert (grid_height (cell_set g cx y v) = grid_height g) as Hh.
  { apply rectangular_heights; [done|].
    intros Hnil. pose proof (grid_width_cell_set g cx y v) as Hw.
    rewrite Hnil in Hw. unfold grid_width in Hw. by destruct g. }
  split; [|done]. unfold rectangular. by rewrite Hh.
Qed.

Section CheckedProps.

Context {CharRole : Type}.
Implicit Types (a : DrawArgs CharRole) (st : DrawState CharRole).

Lemma checked_tag_role_ok (rc : option (Grid CharRole)) (role : option CharRole)
    (cx y : Z) :
  role_rectangular rc -> 0 <= cx -> 0 <= y ->
  checked_tag_role rc role cx y = Ok (tag_role rc role cx y) /\
  role_rectangular (tag_role rc role cx y).
Proof.
  intros Hrc Hcx Hy. unfold checked_tag_role, tag_role.
  destruct rc as [g|]; [|done]. destruct role as [r|]; [|done].
  destruct ((cx <? grid_width g) && (y <? grid_height g)) eqn:Hin; [|done].
  cbn in Hrc.
  rewrite (checked_set_in_bounds g (grid_height g)) by (done || apply in_bounds_true; lia).
  split; [done|]. cbn. apply cell_set_rectangular; [done | lia].
Qed.

(** On rectangular grids an iteration of the checked loop does not fault
    and does what the loop does. *)
Lemma checked_step_ok a st (code : codepoint) :
  Forall (fun col => Z.of_nat (length col) = arg_h a) (canvas st) ->
  role_rectangular (roleCanvas st) ->
  checked_step a st code = Ok (draw_step a st code) /\
  Forall (fun col => Z.of_nat (length col) = arg_h a) (canvas (draw_step a st code)) /\
  role_rectangular (roleCanvas (draw_step a st code)).
Proof.
  intros Hg Hrc. unfold checked_step, draw_step.
  destruct (code =? 0xfe0f).
  - (* selector *)
    unfold checked_selector, draw_selector.
    set (canvas1 := if in_bounds (canvas st) (arg_h a) (lastWrittenCx st) (arg_y a)
                    then cell_set (canvas st) (lastWrittenCx st) (arg_y a)
                           (default [] (cell_get (canvas st) (lastWrittenCx st) (arg_y a)) ++ [code])
                    else canvas st).
    assert ((if in_bounds (canvas st) (arg_h a) (lastWrittenCx st) (arg_y a)
             then result_bind (checked_get (canvas st) (lastWrittenCx st) (arg_y a))
                    (fun old => checked_set (canvas st) (lastWrittenCx st) (arg_y a)
                                  (default [] old ++ [code]))
             else Ok (canvas st)) = Ok canvas1
            /\ Forall (fun col => Z.of_nat (length col) = arg_h a) canvas1
            /\ grid_width canvas1 = grid_width (canvas st)) as (-> & Hg1 & Hw1).
    { subst canvas1.
      destruct (in_bounds (canvas st) (arg_h a) (lastWrittenCx st) (arg_y a)) eqn:Hlw; [|done].
      rewrite (checked_get_in_bounds _ (arg_h a)) by done. cbn [result_bind].
      rewrite (checked_set_in_bounds _ (arg_h a)) by done.
      apply in_bounds_true in Hlw.
      split; [done|]. split; [apply cell_set_heights; [done | lia]|].
      apply grid_width_cell_set. }
    cbn [result_bind].
    destruct (lastWasFullwidth st); cbn [negb]; [done|].
    destruct (in_bounds canvas1 (arg_h a) (arg_x a + offset st) (arg_y a)) eqn:Hpx.
    + rewrite (checked_set_in_bounds _ (arg_h a)) by done. cbn.
      apply in_bounds_true in Hpx.
      split; [done|]. split; [apply cell_set_heights; [done | lia] | done].
    + done.
  - destruct (isZeroWidth code); [done|].
    (* ordinary character *)
    unfold checked_glyph, draw_glyph.
    assert (checked_writable a st = Ok (glyph_writable a st)) as ->.
    { unfold checked_writable, glyph_writable.
      destruct (in_bounds (canvas st) (arg_h a) (arg_x a + offset st) (arg_y a)) eqn:Hcx; [|done].
      destruct (forceOverwrite a); [done|].
      by rewrite (checked_get_in_bounds _ (arg_h a)) by done. }
    cbn [result_bind].
    destruct (glyph_writable a st) eqn:Hw.
    2:{ cbn [result_bind]. by destruct (isFullwidthChar code). }
    assert (in_bounds (canvas st) (arg_h a) (arg_x a + offset st) (arg_y a) = true) as Hcx.
    { unfold glyph_writable in Hw. by apply andb_true_iff in Hw as [? _]. }
    apply in_bounds_true in Hcx as Hb.
    rewrite (checked_set_in_bounds _ (arg_h a)) by done. cbn [result_bind].
    destruct (checked_tag_role_ok (roleCanvas st) (arg_role a)
                (arg_x a + offset st) (arg_y a)) as [-> Hrc']; [done|lia|lia|].
    cbn [result_bind].
    pose proof (cell_set_heights (canvas st) (arg_h a) (arg_x a + offset st) (arg_y a)
                  [code] Hg ltac:(lia)) as Hg1.
    destruct (isFullwidthChar code); [|done].
    destruct (in_bounds _ (arg_h a) (arg_x a + (offset st + 1)) (arg_y a)) eqn:Hpx; [|done].
    rewrite (checked_set_in_bounds _ (arg_h a)) by done. cbn.
    split; [done|]. split; [apply cell_set_heights; [done | lia] | done].
Qed.

Lemma checked_loop_ok a (text : jsstring) st :
  Forall (fun col => Z.of_nat (length col) = arg_h a) (canvas st) ->
  role_rectangular (roleCanvas st) ->
  checked_loop a text st = Ok (draw_loop a text st).
Proof.
  revert st. induction text as [|code text IH]; intros st Hg Hrc; [done|].
  destruct (checked_step_ok a st code Hg Hrc) as (Hstep & Hg' & Hrc').
  cbn [checked_loop]. rewrite Hstep. cbn [result_bind]. by apply IH.
Qed.

End CheckedProps.

Section CheckedFaults.

Context {CharRole : Type}.
Implicit Types (a : DrawArgs CharRole) (st : DrawState CharRole).

Lemma checked_tag_role_cases (rc : option (Grid CharRole)) (role : option CharRole)
    (cx y : Z) :
  0 <= cx ->
  checked_tag_role rc role cx y = Ok (tag_role rc role cx y) \/
  checked_tag_role rc role cx y = Fault OutOfRange.
Proof.
  intros Hcx. unfold checked_tag_role, tag_role.
  destruct rc as [g|]; [|by left]. destruct role as [r|]; [|by left].
  destruct ((cx <? grid_width g) && (y <? grid_height g)) eqn:Hin; [|by left].
  destruct (checked_set_cases g cx y r) as [-> | ->]; [lia | by left | by right].
Qed.

(** On any grid an iteration of the checked loop does what the loop
    does, or stops on a cell past the end of a (too short) column: the
    column index is always that of an existing column. *)
Lemma checked_step_cases a st (code : codepoint) :
  checked_step a st code = Ok (draw_step a st code) \/
  checked_step a st code = Fault OutOfRange.
Proof.
  unfold checked_step, draw_step.
  destruct (code =? 0xfe0f).
  - unfold checked_selector, draw_selector.
    destruct (in_bounds (canvas st) (arg_h a) (lastWrittenCx st) (arg_y a)) eqn:Hlw.
    + apply in_bounds_true in Hlw as [Hlw _].
      destruct (checked_get_cases (canvas st) (lastWrittenCx st) (arg_y a) Hlw)
        as [-> | ->]; [cbn [result_bind] | by right].
      destruct (checked_set_cases (canvas st) (lastWrittenCx st) (arg_y a)
                  (default [] (cell_get (canvas st) (lastWrittenCx st) (arg_y a)) ++ [code]) Hlw)
        as [-> | ->]; [cbn [result_bind] | by right].
      destruct (lastWasFullwidth st); cbn [negb]; [by left|].
      destruct (in_bounds _ (arg_h a) (arg_x a + offset st) (arg_y a)) eqn:Hpx; [|by left].
      apply in_bounds_true in Hpx as [Hpx _].
      destruct (checked_set_cases _ (arg_x a + offset st) (arg_y a) CJK_PAD Hpx)
        as [-> | ->]; [by left | by right].
    + cbn [result_bind].
      destruct (lastWasFullwidth st); cbn [negb]; [by left|].
      destruct (in_bounds _ (arg_h a) (arg_x a + offset st) (arg_y a)) eqn:Hpx; [|by left].
      apply in_bounds_true in Hpx as [Hpx _].
      destruct (checked_set_cases _ (arg_x a + offset st) (arg_y a) CJK_PAD Hpx)
        as [-> | ->]; [by left | by right].
  - destruct (isZeroWidth code); [by left|].
    unfold checked_glyph, draw_glyph.
    assert (checked_writable a st = Ok (glyph_writable a st) \/
            checked_writable a st = Fault OutOfRange) as [-> | ->]; [|cbn [result_bind]|by right].
    { unfold checked_writable, glyph_writable.
      destruct (in_bounds (canvas st) (arg_h a) (arg_x a + offset st) (arg_y a)) eqn:Hcx;
        [|by left].
      destruct (forceOverwrite a); [by left|].
      apply in_bounds_true in Hcx as [Hcx _].
      destruct (checked_get_cases (canvas st) (arg_x a + offset st) (arg_y a) Hcx)
        as [-> | ->]; [by left | by right]. }
    destruct (glyph_writable a st) eqn:Hw.
    2:{ cbn [result_bind]. left. by destruct (isFullwidthChar code). }
    apply glyph_writable_in_bounds in Hw as [Hcx Hy].
    destruct (checked_set_cases (canvas st) (arg_x a + offset st) (arg_y a) [code] Hcx)
      as [-> | ->]; [cbn [result_bind] | by right].
    destruct (checked_tag_role_cases (roleCanvas st) (arg_role a)
                (arg_x a + offset st) (arg_y a)) as [-> | ->];
      [lia | cbn [result_bind] | by right].
    destruct (isFullwidthChar code); [|by left].
    destruct (in_bounds _ (arg_h a) (arg_x a + (offset st + 1)) (arg_y a)) eqn:Hpx; [|by left].
    apply in_bounds_true in Hpx as [Hpx _].
    destruct (checked_set_cases _ (arg_x a + (offset st + 1)) (arg_y a) CJK_PAD Hpx)
      as [-> | ->]; [by left | by right].
Qed.

Lemma checked_loop_cases a (text : jsstring) st :
  checked_loop a text st = Ok (draw_loop a text st) \/
  checked_loop a text st = Fault OutOfRange.
Proof.
  revert st. induction text as [|code text IH]; intros st; [by left|].
  cbn [checked_loop].
  destruct (checked_step_cases a st code) as [-> | ->]; [|by right].
  cbn [result_bind]. apply IH.
Qed.

(** With the row outside the grid an iteration writes nothing. *)
Lemma draw_step_row_outside a st (code : codepoint) :
  ~ (0 <= arg_y a < arg_h a) ->
  canvas (draw_step a st code) = canvas st /\
  roleCanvas (draw_step a st code) = roleCanvas st.
Proof.
  intros Hy.
  assert (forall (g : Grid jsstring) cx, in_bounds g (arg_h a) cx (arg_y a) = false) as Hout.
  { intros g cx. destruct (in_bounds g (arg_h a) cx (arg_y a)) eqn:H; [|done].
    apply in_bounds_true in H. lia. }
  unfold draw_step, draw_selector, draw_glyph, glyph_writable.
  rewrite !Hout. cbn [andb]. by repeat case_match.
Qed.

Lemma draw_loop_row_outside a (text : jsstring) st :
  ~ (0 <= arg_y a < arg_h a) ->
  canvas (draw_loop a text st) = canvas st /\
  roleCanvas (draw_loop a text st) = roleCanvas st.
Proof.
  intros Hy. revert st. induction text as [|code text IH]; intros st; [done|].
  change (draw_loop a (code :: text) st)
    with (draw_loop a text (draw_step a st code)).
  destruct (IH (draw_step a st code)) as [-> ->].
  by apply draw_step_row_outside.
Qed.

(** C8: under the strict reading of array accesses a call never indexes
    a column that does not exist, whatever the grid and the coordinates;
    on a rectangular grid (and style grid) it makes no access outside
    the grid at all and ends in the state the loop computes; and when
    the row is outside the grid nothing is written. *)
Theorem drawCJKText_accesses_in_bounds (c : Grid jsstring) (x y : Z)
    (text : jsstring) (force : bool) (rc : option (Grid CharRole))
    (role : option CharRole) :
  checked_drawCJKText c x y text force rc role <> Fault TypeError /\
  (rectangular c -> role_rectangular rc ->
   checked_drawCJKText c x y text force rc role
   = Ok (drawCJKText c x y text force rc role)) /\
  (~ (0 <= y < grid_height c) ->
   canvas (drawCJKText c x y text force rc role) = c /\
   roleCanvas (drawCJKText c x y text force rc role) = rc).
Proof.
  unfold checked_drawCJKText, drawCJKText. split; [|split].
  - by destruct (checked_loop_cases (draw_args c x y force role) text (draw_init c rc))
      as [-> | ->].
  - intros Hc Hrc. by apply checked_loop_ok.
  - intros Hy.
    by apply (draw_loop_row_outside (draw_args c x y force role) text (draw_init c rc)).
Qed.

End CheckedFaults.

Lemma drawCJKText_accesses_in_bounds_witness :
  let c := blank_canvas 4 2 in
  let rc := Some (replicate 4 (replicate 2 (@None nat))) in
  let text := [0x41; 0x4e2d; 0x26a0; 0xfe0f; 0x6587] in
  rectangular c /\ role_rectangular rc /\
  checked_drawCJKText c (-1) 1 text true rc (Some 7%nat)
  = Ok (drawCJKText c (-1) 1 text true rc (Some 7%nat)).
Proof.
  assert (rectangular (blank_canvas 4 2)) as Hc by (repeat constructor).
  assert (role_rectangular (Some (replicate 4 (replicate 2 (@None nat))))) as Hrc
    by (repeat constructor).
  split; [exact Hc|]. split; [exact Hrc|].
  exact (proj1 (proj2 (drawCJKText_accesses_in_bounds (blank_canvas 4 2) (-1) 1
           [0x41; 0x4e2d; 0x26a0; 0xfe0f; 0x6587] true
           (Some (replicate 4 (replicate 2 (@None nat)))) (Some 7%nat))) Hc Hrc).
Defined.

(** ** Numbers as coordinates *)

(** On integer coordinates the loop over numbers draws what the loop
    over integers draws. *)
Example num_draw_on_integers :
  num_result_canvas (num_checked_drawCJKText (CharRole := unit) (blank_canvas 5 1)
     (num_of_Z 0) (num_of_Z 0) [0x41; 0x4e2d; 0x26a0; 0xfe0f] false None None)
  = Ok (canvas (drawCJKText (CharRole := unit) (blank_canvas 5 1) 0 0
                  [0x41; 0x4e2d; 0x26a0; 0xfe0f] false None None)) /\
  num_result_canvas (num_checked_drawCJKText (CharRole := unit) (blank_canvas 3 2)
     (num_of_Z (-1)) (num_of_Z 1) [0x4e2d; 0x42; 0x43; 0x44] true None None)
  = Ok (canvas (drawCJKText (CharRole := unit) (blank_canvas 3 2) (-1) 1
                  [0x4e2d; 0x42; 0x43; 0x44] true None None)).
Proof. split; vm_compute; reflexivity. Qed.

(** C8 as the specification states it fails.  A column that is not an
    integer passes the bounds test and indexes no column: with
    [x = 0.5] the first glyph throws [TypeError].  And a grid whose
    columns are shorter than the first one is read past the end of a
    column: with [y = 1] on columns of heights 2 and 1 the glyph aimed
    at column 1 reads a cell that is not there. *)
Lemma drawCJKText_faults_off_the_grid :
  num_result_canvas (num_checked_drawCJKText (CharRole := unit) (blank_canvas 2 1)
     0.5%float (num_of_Z 0) [0x41] false None None)
  = Fault TypeError /\
  PrimFloat.leb (num_of_Z 0) 0.5%float = true /\
  PrimFloat.ltb 0.5%float (num_of_Z (grid_width (blank_canvas 2 1))) = true /\
  array_position (blank_canvas 2 1) 0.5%float = None /\
  checked_drawCJKText (CharRole := unit)
     [[Some [0x20]; Some [0x20]]; [Some [0x20]]] 0 1 [0x41; 0x42] false None None
  = Fault OutOfRange.
Proof. repeat split; vm_compute; reflexivity. Qed.


(** ** The padding sentinel and the presentation selector *)

(** C1 fails on the code: the selector branch writes the padding
    sentinel whether or not the glyph before it was written.  Drawing
    U+26A0 U+FE0F over the row [X Y] with [forceOverwrite] off leaves [X]
    (the glyph is blocked) and replaces [Y] by the sentinel; drawing a
    lone U+FE0F into a blank cell writes the sentinel although no glyph
    was written at all. *)
Lemma selector_pads_unwritten_glyph :
  canvas_row (canvas (drawCJKText (CharRole := unit)
     (row_canvas [[0x58]; [0x59]]) 0 0 [0x26a0; 0xfe0f] false None None)) 0
  = [Some [0x58]; Some CJK_PAD] /\
  canvas_row (canvas (drawCJKText (CharRole := unit)
     (row_canvas [[0x20]]) 0 0 [0xfe0f] false None None)) 0
  = [Some CJK_PAD].
Proof. split; reflexivity. Qed.



(** C3 fails on the code, by the defect of C1: after a glyph that was
    blocked, and at the head of the text, the selector branch writes the
    padding sentinel into a cell that the call has not written.  In the
    row [X Y] the glyph U+26A0 is blocked by [X] (the grid is unchanged
    and nothing counts as written), and processing the selector then
    replaces [Y]; in the one-cell row [Y] a lone selector replaces [Y]. *)
Lemma selector_touches_cell_after_skipped_glyph :
  let c := row_canvas [[0x58]; [0x59]] in
  let a := draw_args (CharRole := unit) c 0 0 false None in
  let st := draw_loop a [0x26a0] (draw_init c None) in
  let st' := draw_loop a ([0x26a0] ++ [VS16]) (draw_init c None) in
  (canvas st = c /\ lastWrittenCx st = -1 /\
   (forall cx, ~ wrote_glyph_at a (draw_init c None) [0x26a0] cx) /\
   cell_get (canvas st) 1 0 = Some [0x59] /\
   cell_get (canvas st') 1 0 = Some CJK_PAD) /\
  canvas_row (canvas (drawCJKText (CharRole := unit)
     (row_canvas [[0x59]]) 0 0 [0xfe0f] false None None)) 0
  = [Some CJK_PAD].
Proof.
  cbn zeta. split; [|reflexivity].
  split; [reflexivity|]. split; [reflexivity|]. split; [|split; reflexivity].
  intros cx (pre1 & g & pre2 & Hsplit & _ & _ & Hw & _).
  destruct pre1 as [|g1 pre1].
  - vm_compute in Hw. discriminate.
  - destruct pre1; discriminate.
Qed.

Lemma selector_appends_to_written_cell_witness :
  let c := blank_canvas 3 1 in
  let a := draw_args (CharRole := unit) c 0 0 false None in
  let st := draw_loop a [0x26a0] (draw_init c None) in
  let st' := draw_loop a ([0x26a0] ++ [VS16]) (draw_init c None) in
  0 <> 0 + offset st /\
  cell_get (canvas st') 0 0 <> cell_get (canvas st) 0 0 /\
  0 = 0 /\ roleCanvas st' = roleCanvas st /\
  wrote_glyph_at a (draw_init c None) [0x26a0] 0 /\
  cell_get (canvas st') 0 0
  = Some (default [] (cell_get (canvas st) 0 0) ++ [VS16]).
Proof.
  split; [vm_compute; discriminate|]. split; [vm_compute; discriminate|].
  apply (selector_appends_to_written_cell (CharRole := unit)
           (blank_canvas 3 1) 0 0 false None None [0x26a0] 0 0);
    vm_compute; discriminate.
Defined.

(** C10: [isZeroWidth] accepts the presentation selector, but neither
    loop asks it about that code point: both take the selector branch
    first, which is not a skip (in [displayWidth] it adds a column when
    the lookback flag is set). *)
Theorem isZeroWidth_accepts_selector {CharRole : Type} :
  isZeroWidth 0xfe0f = true /\
  (0xfe00 <= 0xfe0f <= 0xfe0f) /\
  (forall st : WidthState,
     displayWidth_step st 0xfe0f
     = if prevWasNarrowEmoji st then mkWidthState (w st + 1) false else st) /\
  (forall (a : DrawArgs CharRole) (st : DrawState CharRole),
     draw_step a st 0xfe0f = draw_selector a st 0xfe0f) /\
  displayWidth_step (mkWidthState 1 true) 0xfe0f = mkWidthState 2 false.
Proof. repeat split; done. Qed.

(** ** More cases of the unit tests *)

Example displayWidth_tests :
  displayWidth [] = 0 /\
  displayWidth [0x26a1] = 2 /\
  displayWidth [0x26a0] = 1 /\
  displayWidth [0x26a0; 0xfe0f] = 2 /\
  displayWidth [0x2708; 0xfe0f] = 2 /\
  displayWidth [0x1f600] = 2 /\
  displayWidth [0x65; 0x0301] = 1 /\
  displayWidth [0x41; 0xfe00] = 1 /\
  displayWidth [0x250c; 0x2510; 0x2514; 0x2518] = 4.
Proof. repeat split. Qed.

Example isFullwidthChar_tests :
  isFullwidthChar 0x4e00 = true /\ isFullwidthChar 0x9fff = true /\
  isFullwidthChar 0x2a6df = true /\ isFullwidthChar 0xf0000 = false /\
  isFullwidthChar 0x100000 = false /\ isFullwidthChar 0x41 = false /\
  isFullwidthChar 0x26a1 = true /\ isFullwidthChar 0x26a0 = false.
Proof. repeat split. Qed.

Example draw_mixed_layout :
  canvas_row (canvas (drawCJKText (CharRole := unit) (blank_canvas 5 1) 0 0
     [0x41; 0x4e2d; 0x42] false None None)) 0
  = [Some [0x41]; Some [0x4e2d]; Some CJK_PAD; Some [0x42]; Some [0x20]].
Proof. reflexivity. Qed.

Example draw_keeps_non_space :
  canvas_row (canvas (drawCJKText (CharRole := unit)
     (row_canvas [[0x58]; [0x20]; [0x20]]) 0 0 [0x41; 0x42] false None None)) 0
  = [Some [0x58]; Some [0x42]; Some [0x20]].
Proof. reflexivity. Qed.

Example draw_force_overwrites :
  canvas_row (canvas (drawCJKText (CharRole := unit)
     (row_canvas [[0x58]; [0x20]; [0x20]]) 0 0 [0x41; 0x42] true None None)) 0
  = [Some [0x41]; Some [0x42]; Some [0x20]].
Proof. reflexivity. Qed.

Example draw_skips_zero_width :
  canvas_row (canvas (drawCJKText (CharRole := unit) (blank_canvas 3 1) 0 0
     [0x41; 0x200b; 0x42] false None None)) 0
  = [Some [0x41]; Some [0x42]; Some [0x20]].
Proof. reflexivity. Qed.

Example draw_tags_roles :
  roleCanvas (drawCJKText (blank_canvas 3 1) 1 0 [0x4e2d] false
     (Some (replicate 3 [None])) (Some 7%nat))
  = Some [[None]; [Some 7%nat]; [None]].
Proof. reflexivity. Qed.

(** ** Sample runs *)

Example displayWidth_hello_cjk :
  displayWidth [0x48; 0x65; 0x6c; 0x6c; 0x6f; 0x4e2d; 0x6587] = 9.
Proof. reflexivity. Qed.

Example displayWidth_zwj_sequence :
  displayWidth [0x1f468; 0x200d; 0x1f4bb] = 4.
Proof. reflexivity. Qed.

Example draw_cjk_pads :
  canvas_row (canvas (drawCJKText (CharRole := unit) (blank_canvas 5 1) 0 0 [0x4e2d; 0x6587] false None None)) 0
  = [Some [0x4e2d]; Some CJK_PAD; Some [0x6587]; Some CJK_PAD; Some [0x20]].
Proof. reflexivity. Qed.

Example draw_selector_appends :
  canvas_row (canvas (drawCJKText (CharRole := unit) (blank_canvas 3 1) 0 0 [0x26a0; 0xfe0f] false None None)) 0
  = [Some [0x26a0; 0xfe0f]; Some CJK_PAD; Some [0x20]].
Proof. reflexivity. Qed.

Example draw_test_no_pollution :
  canvas_row (canvas (drawCJKText (CharRole := unit)
     (row_canvas [[0x2500]; [0x20]; [0x20]; [0x20]]) 0 0 [0x2500; 0x26a0; 0xfe0f] false None None)) 0
  = [Some [0x2500]; Some [0x26a0; 0xfe0f]; Some CJK_PAD; Some [0x20]].
Proof. reflexivity. Qed.

(** The selector goes to the last cell written, which need not be the
    cell of the character before it: here U+26A0 is blocked by [Z] and
    the selector is appended to the [A] written before. *)
Example draw_selector_after_blocked_glyph :
  canvas_row (canvas (drawCJKText (CharRole := unit)
     (row_canvas [[0x20]; [0x5a]; [0x20]]) 0 0 [0x41; 0x26a0; 0xfe0f] false None None)) 0
  = [Some [0x41; 0xfe0f]; Some [0x5a]; Some CJK_PAD].
Proof. reflexivity. Qed.

(** * Further properties *)

(** ** Width of a string *)

Lemma displayWidth_step_grows (st : WidthState) (c : codepoint) :
  w st <= w (displayWidth_step st c) <= w st + 2.
Proof.
  unfold displayWidth_step. repeat case_match; cbn [w]; lia.
Qed.

Lemma displayWidth_loop_grows (s : jsstring) (st : WidthState) :
  w st <= w (displayWidth_loop s st) <= w st + 2 * Z.of_nat (length s).
Proof.
  revert st. induction s as [|c s IH]; intros st; [cbn; lia|].
  change (displayWidth_loop (c :: s) st)
    with (displayWidth_loop s (displayWidth_step st c)).
  pose proof (IH (displayWidth_step st c)).
  pose proof (displayWidth_step_grows st c).
  cbn [length]. lia.
Qed.

(** A string is never narrower than 0 nor wider than two columns per
    code point. *)
Theorem displayWidth_bounds (s : jsstring) :
  0 <= displayWidth s <= 2 * Z.of_nat (length s).
Proof.
  unfold displayWidth.
  pose proof (displayWidth_loop_grows s (mkWidthState 0 false)) as H.
  cbn [w] in H. lia.
Qed.

(** The width already counted only shifts the result. *)
Lemma displayWidth_loop_shift (s : jsstring) (w0 : Z) (f : bool) :
  displayWidth_loop s (mkWidthState w0 f)
  = mkWidthState (w0 + w (displayWidth_loop s (mkWidthState 0 f)))
                 (prevWasNarrowEmoji (displayWidth_loop s (mkWidthState 0 f))).
Proof.
  revert w0 f. induction s as [|c s IH]; intros w0 f.
  - cbn. f_equal. lia.
  - change (displayWidth_loop (c :: s) ?t)
      with (displayWidth_loop s (displayWidth_step t c)).
    unfold displayWidth_step. cbn [w prevWasNarrowEmoji].
    destruct (c =? 0xfe0f).
    + destruct f.
      * rewrite (IH (w0 + 1)), (IH (0 + 1)). cbn [w prevWasNarrowEmoji].
        f_equal. lia.
      * apply IH.
    + destruct (isZeroWidth c); [apply IH|].
      destruct (isFullwidthChar c).
      * rewrite (IH (w0 + 2)), (IH (0 + 2)). cbn [w prevWasNarrowEmoji].
        f_equal. lia.
      * rewrite (IH (w0 + 1)), (IH (0 + 1)). cbn [w prevWasNarrowEmoji].
        f_equal. lia.
Qed.

(** A set lookback flag is worth at most one column, and none when no
    selector follows. *)
Lemma displayWidth_loop_flag (s : jsstring) :
  let a := displayWidth_loop s (mkWidthState 0 true) in
  let b := displayWidth_loop s (mkWidthState 0 false) in
  (w a = w b \/ w a = w b + 1) /\ (~ In VS16 s -> w a = w b).
Proof.
  induction s as [|c s IH]; [cbn; split; [by left | done]|].
  cbn zeta in *.
  change (displayWidth_loop (c :: s) ?t)
    with (displayWidth_loop s (displayWidth_step t c)).
  unfold displayWidth_step. cbn [w prevWasNarrowEmoji].
  destruct (Z.eqb_spec c 0xfe0f) as [->|Hne].
  - rewrite (displayWidth_loop_shift s (0 + 1)). cbn [w]. split; [right; lia|].
    intros Hin. exfalso. apply Hin. by left.
  - destruct IH as [IH1 IH2].
    destruct (isZeroWidth c).
    + split; [done|]. intros Hin. apply IH2. intros H. apply Hin. by right.
    + destruct (isFullwidthChar c); split; by (left || idtac).
Qed.

(** On sequences of code points: the width of [s1 ++ s2] is the sum of
    the widths, plus one column when a selector at the head of [s2]
    upgrades the last character of [s1]; it is the sum when [s2] has no
    selector. *)
Lemma displayWidth_app (s1 s2 : jsstring) :
  displayWidth s1 + displayWidth s2 <= displayWidth (s1 ++ s2)
    <= displayWidth s1 + displayWidth s2 + 1 /\
  (~ In VS16 s2 -> displayWidth (s1 ++ s2) = displayWidth s1 + displayWidth s2).
Proof.
  unfold displayWidth. rewrite displayWidth_loop_app.
  destruct (displayWidth_loop s1 (mkWidthState 0 false)) as [w1 f1].
  rewrite (displayWidth_loop_shift s2 w1 f1). cbn [w].
  destruct f1; [|split; [lia | intros; lia]].
  destruct (displayWidth_loop_flag s2) as [H H2]. cbn zeta in H, H2.
  split; [lia|]. intros Hin. specialize (H2 Hin). lia.
Qed.

(** Without a selector the width is a plain count: one column per
    ordinary code point, two per always-wide one, none per zero-width
    one. *)
Theorem displayWidth_without_selector (s : jsstring) :
  ~ In VS16 s ->
  displayWidth s
  = Z.of_nat (length (List.filter
                (fun c => negb (isZeroWidth c) && negb (isFullwidthChar c)) s))
    + 2 * Z.of_nat (length (List.filter
                (fun c => negb (isZeroWidth c) && isFullwidthChar c) s)).
Proof.
  unfold displayWidth. generalize false as f.
  induction s as [|c s IH]; intros f Hin; [done|].
  change (displayWidth_loop (c :: s) ?t)
    with (displayWidth_loop s (displayWidth_step t c)).
  assert (c <> VS16) as Hc by (intros ->; apply Hin; by left).
  assert (~ In VS16 s) as Hs by (intros H; apply Hin; by right).
  unfold displayWidth_step. cbn [w prevWasNarrowEmoji].
  destruct (Z.eqb_spec c 0xfe0f) as [->|_]; [done|].
  cbn [List.filter].
  destruct (isZeroWidth c); cbn [negb andb]; [by apply IH|].
  destruct (isFullwidthChar c); cbn [negb length];
    rewrite displayWidth_loop_shift; cbn [w]; rewrite (IH _ Hs); lia.
Qed.

Lemma displayWidth_without_selector_witness :
  ~ In VS16 [0x41; 0x4e2d; 0x0301] /\
  displayWidth [0x41; 0x4e2d; 0x0301]
  = Z.of_nat (length (List.filter
                (fun c => negb (isZeroWidth c) && negb (isFullwidthChar c))
                [0x41; 0x4e2d; 0x0301]))
    + 2 * Z.of_nat (length (List.filter
                (fun c => negb (isZeroWidth c) && isFullwidthChar c)
                [0x41; 0x4e2d; 0x0301])).
Proof.
  assert (~ In VS16 [0x41; 0x4e2d; 0x0301]) as Hin.
  { cbn [In]. intros [H|[H|[H|[]]]]; discriminate. }
  split; [exact Hin|].
  exact (displayWidth_without_selector [0x41; 0x4e2d; 0x0301] Hin).
Defined.

(** ASCII text is as wide as it is long. *)
Theorem displayWidth_ascii (s : jsstring) :
  Forall (fun c => 0 <= c < 0x80) s ->
  displayWidth s = Z.of_nat (length s).
Proof.
  unfold displayWidth. intros Hs.
  enough (forall w0, displayWidth_loop s (mkWidthState w0 false)
                     = mkWidthState (w0 + Z.of_nat (length s)) false) as H
    by (by rewrite H).
  induction Hs as [|c s Hc Hs IH]; intros w0; [cbn; f_equal; lia|].
  change (displayWidth_loop (c :: s) ?t)
    with (displayWidth_loop s (displayWidth_step t c)).
  assert (displayWidth_step (mkWidthState w0 false) c = mkWidthState (w0 + 1) false) as ->.
  { unfold displayWidth_step. cbn [w prevWasNarrowEmoji].
    assert ((c =? 0xfe0f) = false) as -> by lia.
    assert (isZeroWidth c = false) as -> by (unfold isZeroWidth; lia).
    assert (isFullwidthChar c = false) as -> by (unfold isFullwidthChar; lia).
    assert (isEmojiModifiable c = false) as -> by (unfold isEmojiModifiable; lia).
    done. }
  rewrite IH. cbn [length]. f_equal. lia.
Qed.

Lemma displayWidth_ascii_witness :
  Forall (fun c => 0 <= c < 0x80) [0x48; 0x69] /\
  displayWidth [0x48; 0x69] = Z.of_nat (length [0x48; 0x69]).
Proof.
  assert (Forall (fun c => 0 <= c < 0x80) [0x48; 0x69]) as H
    by (repeat constructor; lia).
  split; [exact H|]. exact (displayWidth_ascii [0x48; 0x69] H).
Defined.

(** ** The tables *)

(** The classes do not collide: a zero-width code point is neither
    always wide nor upgrade-eligible (so the order in which the loops
    test [isZeroWidth] and [isFullwidthChar] does not matter), and the
    selector is in neither of the two width tables. *)
Theorem classification_tables_disjoint (c : codepoint) :
  isZeroWidth c = true ->
  isFullwidthChar c = false /\ isEmojiModifiable c = false.
Proof.
  intros Hz. split.
  - destruct (isFullwidthChar c) eqn:H; [|done].
    destruct (isFullwidthChar_not_zero_width c H). congruence.
  - destruct (isEmojiModifiable c) eqn:H; [|done].
    destruct (isEmojiModifiable_not_zero_width c H). congruence.
Qed.

Lemma classification_tables_disjoint_witness :
  isZeroWidth 0x200d = true /\
  isFullwidthChar 0x200d = false /\ isEmojiModifiable 0x200d = false.
Proof.
  split; [reflexivity|].
  exact (classification_tables_disjoint 0x200d eq_refl).
Defined.


(** Private-use code points (U+E000..U+F8FF, to which the sentinel
    belongs, and the planes 15 and 16) are in none of the tables: each
    is an ordinary single-width character. *)
Theorem private_use_is_single_width (c : codepoint) :
  0xe000 <= c <= 0xf8ff \/ 0xf0000 <= c ->
  isFullwidthChar c = false /\ isZeroWidth c = false /\
  isEmojiModifiable c = false /\ displayWidth [c] = 1.
Proof.
  intros Hc.
  assert (isFullwidthChar c = false) as Hf by (unfold isFullwidthChar; lia).
  assert (isZeroWidth c = false) as Hz by (unfold isZeroWidth; lia).
  assert (isEmojiModifiable c = false) as Hm by (unfold isEmojiModifiable; lia).
  repeat split; try done.
  unfold displayWidth, displayWidth_loop. cbn [fold_left].
  unfold displayWidth_step.
  assert ((c =? 0xfe0f) = false) as -> by lia.
  by rewrite Hz, Hf.
Qed.

Lemma private_use_is_single_width_witness :
  (0xe000 <= 0xe000 <= 0xf8ff \/ 0xf0000 <= 0xe000) /\
  isFullwidthChar 0xe000 = false /\ isZeroWidth 0xe000 = false /\
  isEmojiModifiable 0xe000 = false /\ displayWidth [0xe000] = 1.
Proof.
  assert (0xe000 <= 0xe000 <= 0xf8ff \/ 0xf0000 <= 0xe000) as H by (left; lia).
  split; [exact H|]. exact (private_use_is_single_width 0xe000 H).
Defined.

(** ** The columns a call uses *)

Lemma selectors_upgrade_without_selector (f : bool) (text : jsstring) :
  ~ In VS16 text -> selectors_upgrade_from f text = true.
Proof.
  revert f. induction text as [|c text IH]; intros f Hin; [done|].
  cbn [selectors_upgrade_from].
  destruct (Z.eqb_spec c 0xfe0f) as [->|_].
  - exfalso. apply Hin. by left.
  - apply IH. intros H. apply Hin. by right.
Qed.

Section DrawColumns.

Context {CharRole : Type}.
Implicit Types (a : DrawArgs CharRole) (st : DrawState CharRole).

Lemma draw_loop_cons a (code : codepoint) (text : jsstring) st :
  draw_loop a (code :: text) st = draw_loop a text (draw_step a st code).
Proof. reflexivity. Qed.

Lemma draw_loop_offset a (text : jsstring) st :
  offset st <= offset (draw_loop a text st) <= offset st + 2 * Z.of_nat (length text).
Proof.
  revert st. induction text as [|c text IH]; intros st; [cbn; lia|].
  rewrite draw_loop_cons.
  pose proof (IH (draw_step a st c)). pose proof (draw_step_offset a st c).
  cbn [length]. lia.
Qed.

(** The last written column lies between the start column and the
    cursor. *)
Lemma draw_step_behind_cursor a st (code : codepoint) :
  0 <= offset st ->
  (0 <= lastWrittenCx st -> arg_x a <= lastWrittenCx st < arg_x a + offset st) ->
  0 <= offset (draw_step a st code) /\
  (0 <= lastWrittenCx (draw_step a st code) ->
   arg_x a <= lastWrittenCx (draw_step a st code)
     < arg_x a + offset (draw_step a st code)).
Proof.
  intros Hoff Hlw. pose proof (draw_step_offset a st code) as Ho.
  split; [lia|].
  destruct (draw_step_lastWrittenCx a st code) as [->|(_ & _ & _ & -> & ?)]; lia.
Qed.

(** One iteration changes no cell left of the start column or at or
    right of the new cursor. *)
Lemma draw_step_outside a st (code : codepoint) (cx r : Z) :
  0 <= offset st ->
  (0 <= lastWrittenCx st -> arg_x a <= lastWrittenCx st < arg_x a + offset st) ->
  cx < arg_x a \/ arg_x a + offset (draw_step a st code) <= cx ->
  cell_get (canvas (draw_step a st code)) cx r = cell_get (canvas st) cx r /\
  role_get (roleCanvas (draw_step a st code)) cx r = role_get (roleCanvas st) cx r.
Proof.
  intros Hoff Hlw Hcx. pose proof (draw_step_offset a st code) as Ho. split.
  - destruct (draw_step_cell a st code cx r)
      as [H|[(_ & -> & Hs & Hz & _)|[(_ & -> & _ & Hb & _)|[(_ & -> & -> & Hfw & _)|
          (_ & -> & Hfw & _)]]]]; [done|..]; exfalso.
    + rewrite (draw_step_offset_glyph a st code Hs Hz) in Hcx.
      destruct (isFullwidthChar code); lia.
    + apply in_bounds_true in Hb. lia.
    + rewrite draw_step_offset_selector, Hfw in Hcx. lia.
    + destruct (isFullwidthChar_not_zero_width code Hfw) as [Hz Hs].
      rewrite (draw_step_offset_glyph a st code Hs Hz), Hfw in Hcx. lia.
  - destruct (draw_step_role_cell a st code cx r)
      as [H|(_ & -> & _ & Hs & Hz & _)]; [done|]. exfalso.
    rewrite (draw_step_offset_glyph a st code Hs Hz) in Hcx.
    destruct (isFullwidthChar code); lia.
Qed.

Lemma draw_loop_outside a (text : jsstring) st (cx r : Z) :
  0 <= offset st ->
  (0 <= lastWrittenCx st -> arg_x a <= lastWrittenCx st < arg_x a + offset st) ->
  cx < arg_x a \/ arg_x a + offset (draw_loop a text st) <= cx ->
  cell_get (canvas (draw_loop a text st)) cx r = cell_get (canvas st) cx r /\
  role_get (roleCanvas (draw_loop a text st)) cx r = role_get (roleCanvas st) cx r.
Proof.
  revert st. induction text as [|c text IH]; intros st Hoff Hlw Hcx; [done|].
  rewrite draw_loop_cons in *.
  destruct (draw_step_behind_cursor a st c Hoff Hlw) as [Hoff' Hlw'].
  destruct (IH (draw_step a st c) Hoff' Hlw' Hcx) as [-> ->].
  apply draw_step_outside; [done|done|].
  pose proof (draw_loop_offset a text (draw_step a st c)). lia.
Qed.

(** The cursor and the width accumulator: the cursor advances at least
    as far, and as far when every selector upgrades. *)
Lemma draw_loop_offset_width a (text : jsstring) st (ws : WidthState) :
  (prevWasNarrowEmoji ws = true -> lastWasFullwidth st = false) ->
  w (displayWidth_loop text ws) - w ws
    <= offset (draw_loop a text st) - offset st /\
  (selectors_upgrade_from (prevWasNarrowEmoji ws) text = true ->
   offset (draw_loop a text st) - offset st
   = w (displayWidth_loop text ws) - w ws).
Proof.
  revert st ws. induction text as [|c text IH]; intros st ws Hrel; [cbn; lia|].
  rewrite draw_loop_cons.
  change (displayWidth_loop (c :: text) ws)
    with (displayWidth_loop text (displayWidth_step ws c)).
  cbn [selectors_upgrade_from].
  destruct (draw_step_cases a st c) as [[-> Hd]|[(Hne & Hz & Hd)|(Hs & Hz & Hd)]].
  - (* selector *)
    pose proof (draw_step_offset_selector a st) as Ho.
    assert (lastWasFullwidth (draw_step a st VS16) = true) as Hfw'.
    { rewrite Hd. unfold draw_selector. by destruct (lastWasFullwidth st) eqn:E. }
    rewrite displayWidth_step_VS16. change (VS16 =? 0xfe0f) with true. cbn match.
    destruct (prevWasNarrowEmoji ws) eqn:Hf.
    + rewrite (Hrel eq_refl) in Ho.
      destruct (IH (draw_step a st VS16) (mkWidthState (w ws + 1) false)) as [IH1 IH2];
        [done|]. cbn [w prevWasNarrowEmoji andb] in *. split; [lia|].
      intros Hsel. specialize (IH2 Hsel). lia.
    + destruct (IH (draw_step a st VS16) ws) as [IH1 IH2]; [by rewrite Hf|].
      split; [destruct (lastWasFullwidth st); lia | done].
  - (* zero width *)
    rewrite Hd. rewrite (displayWidth_step_zero_width ws c Hz Hne).
    assert ((c =? 0xfe0f) = false) as -> by (unfold VS16 in Hne; lia).
    assert (prevWasNarrowEmoji (displayWidth_step (mkWidthState 0 (prevWasNarrowEmoji ws)) c)
            = prevWasNarrowEmoji ws) as ->.
    { by rewrite displayWidth_step_zero_width. }
    by apply IH.
  - (* ordinary character *)
    pose proof (draw_step_offset_glyph a st c Hs Hz) as Ho. rewrite Hs.
    assert (displayWidth_step ws c
            = if isFullwidthChar c then mkWidthState (w ws + 2) false
              else mkWidthState (w ws + 1) (isEmojiModifiable c)) as Hws.
    { unfold displayWidth_step. by rewrite Hs, Hz. }
    assert (prevWasNarrowEmoji (displayWidth_step (mkWidthState 0 (prevWasNarrowEmoji ws)) c)
            = prevWasNarrowEmoji (displayWidth_step ws c)) as ->.
    { unfold displayWidth_step. rewrite Hs, Hz. by destruct (isFullwidthChar c). }
    assert (lastWasFullwidth (draw_step a st c) = isFullwidthChar c) as Hfw'.
    { rewrite Hd. unfold draw_glyph. by destruct (isFullwidthChar c). }
    destruct (IH (draw_step a st c) (displayWidth_step ws c)) as [IH1 IH2].
    { rewrite Hfw', Hws. by destruct (isFullwidthChar c). }
    rewrite Hws in *. destruct (isFullwidthChar c); cbn [w] in *.
    + split; [lia|]. intros Hsel. specialize (IH2 Hsel). lia.
    + split; [lia|]. intros Hsel. specialize (IH2 Hsel). lia.
Qed.

(** The cursor of a call ends between [displayWidth text] and two
    columns per code point, and exactly at [displayWidth text] when every
    selector of the text upgrades the character before it. *)
Theorem drawCJKText_cursor (c : Grid jsstring) (x y : Z) (text : jsstring)
    (force : bool) (rc : option (Grid CharRole)) (role : option CharRole) :
  displayWidth text <= offset (drawCJKText c x y text force rc role)
    <= 2 * Z.of_nat (length text) /\
  (selectors_upgrade text = true ->
   offset (drawCJKText c x y text force rc role) = displayWidth text).
Proof.
  unfold drawCJKText, displayWidth, selectors_upgrade.
  pose proof (draw_loop_offset (draw_args c x y force role) text (draw_init c rc)) as Ho.
  destruct (draw_loop_offset_width (draw_args c x y force role) text
              (draw_init c rc) (mkWidthState 0 false)) as [H1 H2]; [done|].
  cbn [offset draw_init w prevWasNarrowEmoji] in *.
  split; [lia|]. intros Hsel. specialize (H2 Hsel). lia.
Qed.

(** A call changes no cell, of either grid, left of the start column or
    two columns per code point or more to its right. *)
Theorem drawCJKText_footprint (c : Grid jsstring) (x y : Z) (text : jsstring)
    (force : bool) (rc : option (Grid CharRole)) (role : option CharRole)
    (cx r : Z) :
  cx < x \/ x + 2 * Z.of_nat (length text) <= cx ->
  cell_get (canvas (drawCJKText c x y text force rc role)) cx r = cell_get c cx r /\
  role_get (roleCanvas (drawCJKText c x y text force rc role)) cx r = role_get rc cx r.
Proof.
  intros Hcx. unfold drawCJKText.
  apply (draw_loop_outside (draw_args c x y force role) text (draw_init c rc));
    cbn [offset lastWrittenCx draw_init draw_args arg_x]; [lia|lia|].
  pose proof (draw_loop_offset (draw_args c x y force role) text (draw_init c rc)) as Ho.
  cbn [offset draw_init] in Ho. lia.
Qed.

(** When every selector of the text upgrades the character before it, a
    call changes no cell outside the [displayWidth text] columns that
    start at [x]. *)
Theorem drawCJKText_within_displayWidth (c : Grid jsstring) (x y : Z)
    (text : jsstring) (force : bool) (rc : option (Grid CharRole))
    (role : option CharRole) (cx r : Z) :
  selectors_upgrade text = true ->
  cx < x \/ x + displayWidth text <= cx ->
  cell_get (canvas (drawCJKText c x y text force rc role)) cx r = cell_get c cx r /\
  role_get (roleCanvas (drawCJKText c x y text force rc role)) cx r = role_get rc cx r.
Proof.
  intros Hsel Hcx. unfold drawCJKText.
  apply (draw_loop_outside (draw_args c x y force role) text (draw_init c rc));
    cbn [offset lastWrittenCx draw_init draw_args arg_x]; [lia|lia|].
  destruct (draw_loop_offset_width (draw_args c x y force role) text
              (draw_init c rc) (mkWidthState 0 false)) as [_ H2]; [done|].
  specialize (H2 Hsel). unfold displayWidth in Hcx.
  cbn [offset draw_init w] in H2. lia.
Qed.

End DrawColumns.

Lemma drawCJKText_cursor_witness :
  selectors_upgrade [0x26a0; 0xfe0f; 0x4e2d] = true /\
  offset (drawCJKText (CharRole := unit) (blank_canvas 6 1) 0 0
            [0x26a0; 0xfe0f; 0x4e2d] false None None)
  = displayWidth [0x26a0; 0xfe0f; 0x4e2d].
Proof.
  split; [reflexivity|].
  exact (proj2 (drawCJKText_cursor (CharRole := unit) (blank_canvas 6 1) 0 0
                  [0x26a0; 0xfe0f; 0x4e2d] false None None) eq_refl).
Defined.

Lemma drawCJKText_footprint_witness :
  (5 < 1 \/ 1 + 2 * Z.of_nat (length [0x4e2d; 0x41]) <= 5) /\
  cell_get (canvas (drawCJKText (CharRole := unit) (blank_canvas 6 1) 1 0
                      [0x4e2d; 0x41] true None None)) 5 0
  = cell_get (blank_canvas 6 1) 5 0 /\
  role_get (roleCanvas (drawCJKText (CharRole := unit) (blank_canvas 6 1) 1 0
                      [0x4e2d; 0x41] true None None)) 5 0
  = role_get None 5 0.
Proof.
  assert (5 < 1 \/ 1 + 2 * Z.of_nat (length [0x4e2d; 0x41]) <= 5) as H
    by (right; cbn; lia).
  split; [exact H|].
  exact (drawCJKText_footprint (CharRole := unit) (blank_canvas 6 1) 1 0
           [0x4e2d; 0x41] true None None 5 0 H).
Defined.

Lemma drawCJKText_within_displayWidth_witness :
  selectors_upgrade [0x26a0; 0xfe0f; 0x41] = true /\
  (3 < 0 \/ 0 + displayWidth [0x26a0; 0xfe0f; 0x41] <= 3) /\
  cell_get (canvas (drawCJKText (CharRole := unit) (blank_canvas 6 1) 0 0
                      [0x26a0; 0xfe0f; 0x41] true None None)) 3 0
  = cell_get (blank_canvas 6 1) 3 0 /\
  role_get (roleCanvas (drawCJKText (CharRole := unit) (blank_canvas 6 1) 0 0
                      [0x26a0; 0xfe0f; 0x41] true None None)) 3 0
  = role_get None 3 0.
Proof.
  assert (3 < 0 \/ 0 + displayWidth [0x26a0; 0xfe0f; 0x41] <= 3) as H
    by (right; vm_compute; discriminate).
  split; [reflexivity|]. split; [exact H|].
  exact (drawCJKText_within_displayWidth (CharRole := unit) (blank_canvas 6 1) 0 0
           [0x26a0; 0xfe0f; 0x41] true None None 3 0 eq_refl H).
Defined.

(** A selector that upgrades nothing for [displayWidth] still takes a
    column of the grid: [A] followed by the selector is one column wide
    and is drawn over two. *)
Example draw_wider_than_displayWidth :
  displayWidth [0x41; 0xfe0f] = 1 /\
  canvas_row (canvas (drawCJKText (CharRole := unit) (blank_canvas 3 1) 0 0
     [0x41; 0xfe0f] false None None)) 0
  = [Some [0x41; 0xfe0f]; Some CJK_PAD; Some [0x20]].
Proof. split; reflexivity. Qed.

(** ** Where the glyphs land *)

Section DrawPlacement.

Context {CharRole : Type}.
Implicit Types (a : DrawArgs CharRole) (st : DrawState CharRole).

Lemma draw_step_grid_width a st (code : codepoint) :
  grid_width (canvas (draw_step a st code)) = grid_width (canvas st).
Proof.
  unfold draw_step, draw_selector, draw_glyph.
  repeat case_match; cbn [canvas]; by rewrite ?grid_width_cell_set.
Qed.

Lemma draw_loop_grid_width a (text : jsstring) st :
  grid_width (canvas (draw_loop a text st)) = grid_width (canvas st).
Proof.
  revert st. induction text as [|c text IH]; intros st; [done|].
  rewrite draw_loop_cons, IH. apply draw_step_grid_width.
Qed.

(** Without a selector, what is behind the cursor stays as it is. *)
Lemma draw_loop_behind a (text : jsstring) st (cx r : Z) :
  ~ In VS16 text -> cx < arg_x a + offset st ->
  cell_get (canvas (draw_loop a text st)) cx r = cell_get (canvas st) cx r.
Proof.
  revert st. induction text as [|c text IH]; intros st Hin Hcx; [done|].
  rewrite draw_loop_cons.
  assert (c <> VS16) as Hc by (intros ->; apply Hin; by left).
  assert (~ In VS16 text) as Hin' by (intros H; apply Hin; by right).
  pose proof (draw_step_offset a st c) as Ho.
  rewrite IH by (done || lia).
  destruct (draw_step_cell a st c cx r)
    as [H|[(_ & -> & _)|[(_ & _ & -> & _)|[(_ & _ & -> & _)|(_ & -> & _)]]]];
    (done || lia).
Qed.

(** An ordinary character [g] of the text is aimed at the column
    [x + displayWidth pre], [pre] being the text before it (in which
    every selector upgrades); with no selector after it, that cell ends
    up holding [g] if it is inside the grid and was blank (or
    [forceOverwrite] is on), and is left as it was otherwise; the padding
    sentinel of a wide [g] follows in the next column exactly when [g]
    was written and that column is inside the grid. *)
Theorem drawCJKText_places_glyph (c : Grid jsstring) (x y : Z)
    (pre : jsstring) (g : codepoint) (post : jsstring) (force : bool)
    (rc : option (Grid CharRole)) (role : option CharRole) :
  selectors_upgrade pre = true -> ~ In VS16 post ->
  g <> VS16 -> isZeroWidth g = false ->
  let cx := x + displayWidth pre in
  let c' := canvas (drawCJKText c x y (pre ++ g :: post) force rc role) in
  let ok := in_bounds c (grid_height c) cx y && (force || is_space (cell_get c cx y)) in
  cell_get c' cx y = (if ok then Some [g] else cell_get c cx y) /\
  (isFullwidthChar g = true ->
   cell_get c' (cx + 1) y
   = if ok && in_bounds c (grid_height c) (cx + 1) y
     then Some CJK_PAD else cell_get c (cx + 1) y).
Proof.
  intros Hsel Hpost Hg Hz cx c' ok. subst c'. unfold drawCJKText.
  set (a := draw_args c x y force role).
  rewrite draw_loop_app, draw_loop_cons.
  set (st1 := draw_loop a pre (draw_init c rc)).
  assert ((g =? 0xfe0f) = false) as Hs by (unfold VS16 in Hg; lia).
  (* the state before [g] *)
  assert (offset st1 = displayWidth pre) as Hoff.
  { destruct (draw_loop_offset_width a pre (draw_init c rc) (mkWidthState 0 false))
      as [_ H]; [done|]. specialize (H Hsel).
    unfold displayWidth. fold st1 in H. cbn [offset draw_init w] in H. lia. }
  assert (forall cx' r, arg_x a + offset st1 <= cx' ->
            cell_get (canvas st1) cx' r = cell_get c cx' r) as Hahead.
  { intros cx' r Hcx'.
    apply (draw_loop_outside a pre (draw_init c rc) cx' r);
      cbn [offset lastWrittenCx draw_init]; [lia | lia | by right]. }
  assert (grid_width (canvas st1) = grid_width c) as Hwd
    by apply draw_loop_grid_width.
  assert (arg_x a + offset st1 = cx) as Hcx by (subst cx; by rewrite Hoff).
  assert (glyph_writable a st1 = ok) as Hw.
  { unfold glyph_writable. rewrite Hcx. subst ok.
    rewrite Hahead by lia. unfold in_bounds. by rewrite Hwd. }
  pose proof (draw_step_offset_glyph a st1 g Hs Hz) as Ho.
  split.
  - rewrite draw_loop_behind by (done || destruct (isFullwidthChar g); lia).
    destruct ok.
    + rewrite <- Hcx. by apply glyph_written_cell.
    + rewrite draw_step_glyph by done. unfold draw_glyph. rewrite Hw.
      destruct (isFullwidthChar g); cbn [canvas]; apply Hahead; lia.
  - intros Hfw. rewrite Hfw in Ho.
    rewrite draw_loop_behind by (done || lia).
    rewrite draw_step_glyph by done. unfold draw_glyph. rewrite Hw, Hfw.
    cbn [canvas]. destruct ok; cbn [andb].
    + rewrite in_bounds_cell_set.
      replace (arg_x a + (offset st1 + 1)) with (cx + 1) by lia.
      assert (in_bounds (canvas st1) (arg_h a) (cx + 1) (arg_y a)
              = in_bounds c (grid_height c) (cx + 1) y) as ->.
      { unfold in_bounds. by rewrite Hwd. }
      destruct (in_bounds c (grid_height c) (cx + 1) y) eqn:Hpx.
      * apply in_bounds_true in Hpx.
        apply cell_get_set_eq; [rewrite grid_width_cell_set, Hwd|]; lia.
      * rewrite cell_get_set_ne by lia. apply Hahead. lia.
    + apply Hahead. lia.
Qed.

End DrawPlacement.

Lemma drawCJKText_places_glyph_witness :
  let c := row_canvas [[0x20]; [0x20]; [0x20]; [0x20]; [0x23]] in
  let cx := 0 + displayWidth [0x26a0; 0xfe0f] in
  let c' := canvas (drawCJKText (CharRole := unit) c 0 0
                      ([0x26a0; 0xfe0f] ++ 0x4e2d :: [0x41]) false None None) in
  let ok := in_bounds c (grid_height c) cx 0 && (false || is_space (cell_get c cx 0)) in
  cell_get c' cx 0 = (if ok then Some [0x4e2d] else cell_get c cx 0) /\
  (isFullwidthChar 0x4e2d = true ->
   cell_get c' (cx + 1) 0
   = if ok && in_bounds c (grid_height c) (cx + 1) 0
     then Some CJK_PAD else cell_get c (cx + 1) 0).
Proof.
  apply (drawCJKText_places_glyph (CharRole := unit)
           (row_canvas [[0x20]; [0x20]; [0x20]; [0x20]; [0x23]]) 0 0
           [0x26a0; 0xfe0f] 0x4e2d [0x41] false None None).
  - reflexivity.
  - cbn [In]. intros [H|[]]. discriminate.
  - discriminate.
  - reflexivity.
Defined.

(** ** The shape of the grids *)

Lemma grid_height_cell_set {A : Type} (g : Grid A) (cx y : Z) (v : A) :
  y < grid_height g -> grid_height (cell_set g cx y v) = grid_height g.
Proof.
  intros Hy. unfold cell_set.
  destruct (js_index g cx) as [col|] eqn:Hcol; [|done].
  apply js_index_Some in Hcol as [_ Hcol].
  destruct g as [|col0 g]; [done|].
  destruct (Z.to_nat cx) as [|n]; [|done].
  cbn in Hcol. injection Hcol as ->. cbn in *.
  by rewrite length_js_assign.
Qed.

Section DrawShape.

Context {CharRole : Type}.
Implicit Types (a : DrawArgs CharRole) (st : DrawState CharRole).

Lemma tag_role_shape (rc : option (Grid CharRole)) (role : option CharRole) (cx y : Z) :
  from_option grid_width 0 (tag_role rc role cx y) = from_option grid_width 0 rc /\
  from_option grid_height 0 (tag_role rc role cx y) = from_option grid_height 0 rc /\
  (is_Some (tag_role rc role cx y) <-> is_Some rc).
Proof.
  unfold tag_role. destruct rc as [g|]; [|done]. destruct role as [r|]; [|done].
  destruct ((cx <? grid_width g) && (y <? grid_height g)) eqn:Hin; [|done].
  cbn. rewrite grid_width_cell_set, grid_height_cell_set by lia.
  split; [done|]. split; [done|]. split; eauto.
Qed.

(** One iteration keeps the number of columns and the height of both
    grids, and the height of every column of a rectangular grid. *)
Lemma draw_step_shape a st (code : codepoint) :
  grid_height (canvas st) = arg_h a ->
  grid_height (canvas (draw_step a st code)) = arg_h a /\
  from_option grid_width 0 (roleCanvas (draw_step a st code))
  = from_option grid_width 0 (roleCanvas st) /\
  from_option grid_height 0 (roleCanvas (draw_step a st code))
  = from_option grid_height 0 (roleCanvas st) /\
  (Forall (fun col => Z.of_nat (length col) = arg_h a) (canvas st) ->
   Forall (fun col => Z.of_nat (length col) = arg_h a) (canvas (draw_step a st code))) /\
  (role_rectangular (roleCanvas st) ->
   role_rectangular (roleCanvas (draw_step a st code))).
Proof.
  intros Hh.
  assert (forall (g : Grid jsstring) cx v,
            grid_height g = arg_h a ->
            grid_height (if in_bounds g (arg_h a) cx (arg_y a)
                         then cell_set g cx (arg_y a) v else g) = arg_h a) as Hguard.
  { intros g cx v Hg. destruct (in_bounds g (arg_h a) cx (arg_y a)) eqn:Hb; [|done].
    apply in_bounds_true in Hb. rewrite grid_height_cell_set; [done | lia]. }
  assert (forall (g : Grid jsstring) cx v,
            Forall (fun col => Z.of_nat (length col) = arg_h a) g ->
            Forall (fun col => Z.of_nat (length col) = arg_h a)
              (if in_bounds g (arg_h a) cx (arg_y a)
               then cell_set g cx (arg_y a) v else g)) as Hrect.
  { intros g cx v Hg. destruct (in_bounds g (arg_h a) cx (arg_y a)) eqn:Hb; [|done].
    apply in_bounds_true in Hb. apply cell_set_heights; [done | lia]. }
  destruct (draw_step_cases a st code) as [[-> ->]|[(_ & _ & ->)|(Hs & Hz & ->)]].
  - unfold draw_selector.
    destruct (lastWasFullwidth st); cbn [negb canvas roleCanvas];
      repeat split; try done; auto.
  - done.
  - unfold draw_glyph, glyph_writable.
    destruct (in_bounds (canvas st) (arg_h a) (arg_x a + offset st) (arg_y a)) eqn:Hb;
      cbn [andb].
    2:{ by destruct (isFullwidthChar code). }
    apply in_bounds_true in Hb as Hb'.
    destruct (forceOverwrite a || is_space _).
    2:{ by destruct (isFullwidthChar code). }
    destruct (tag_role_shape (roleCanvas st) (arg_role a) (arg_x a + offset st) (arg_y a))
      as (Hw & Hg & _).
    assert (role_rectangular (roleCanvas st) ->
            role_rectangular (tag_role (roleCanvas st) (arg_role a)
                                (arg_x a + offset st) (arg_y a))) as Hrr.
    { intros Hr. by apply checked_tag_role_ok; [|lia|lia]. }
    assert (grid_height (cell_set (canvas st) (arg_x a + offset st) (arg_y a) [code])
            = arg_h a) as Hh1 by (rewrite grid_height_cell_set; lia).
    destruct (isFullwidthChar code); cbn [canvas roleCanvas].
    + split; [by apply Hguard|]. split; [done|]. split; [done|].
      split; [|done].
      intros Hr. apply Hrect. apply cell_set_heights; [done | lia].
    + split; [done|]. split; [done|]. split; [done|].
      split; [|done].
      intros Hr. apply cell_set_heights; [done | lia].
Qed.

Lemma draw_loop_shape a (text : jsstring) st :
  grid_height (canvas st) = arg_h a ->
  grid_height (canvas (draw_loop a text st)) = arg_h a /\
  from_option grid_width 0 (roleCanvas (draw_loop a text st))
  = from_option grid_width 0 (roleCanvas st) /\
  from_option grid_height 0 (roleCanvas (draw_loop a text st))
  = from_option grid_height 0 (roleCanvas st) /\
  (Forall (fun col => Z.of_nat (length col) = arg_h a) (canvas st) ->
   Forall (fun col => Z.of_nat (length col) = arg_h a) (canvas (draw_loop a text st))) /\
  (role_rectangular (roleCanvas st) ->
   role_rectangular (roleCanvas (draw_loop a text st))).
Proof.
  revert st. induction text as [|c text IH]; intros st Hh; [done|].
  rewrite draw_loop_cons.
  destruct (draw_step_shape a st c Hh) as (Hh' & Hw & Hg & Hr & Hrr).
  destruct (IH (draw_step a st c) Hh') as (? & -> & -> & ? & ?).
  repeat split; auto.
Qed.

(** A call never resizes the grids: the character grid keeps its number
    of columns and its height, the style grid likewise, and a
    rectangular grid stays rectangular. *)
Theorem drawCJKText_keeps_shape (c : Grid jsstring) (x y : Z) (text : jsstring)
    (force : bool) (rc : option (Grid CharRole)) (role : option CharRole) :
  let st := drawCJKText c x y text force rc role in
  grid_width (canvas st) = grid_width c /\
  grid_height (canvas st) = grid_height c /\
  from_option grid_width 0 (roleCanvas st) = from_option grid_width 0 rc /\
  from_option grid_height 0 (roleCanvas st) = from_option grid_height 0 rc /\
  (is_Some (roleCanvas st) <-> is_Some rc) /\
  (rectangular c -> rectangular (canvas st)) /\
  (role_rectangular rc -> role_rectangular (roleCanvas st)).
Proof.
  intros st. subst st. unfold drawCJKText.
  set (a := draw_args c x y force role).
  destruct (draw_loop_shape a text (draw_init c rc)) as (Hh & Hw & Hg & Hr & Hrr); [done|].
  split; [apply draw_loop_grid_width|]. split; [done|].
  split; [done|]. split; [done|]. split.
  { assert (forall st0, is_Some (roleCanvas (draw_loop a text st0))
                        <-> is_Some (roleCanvas st0)) as H.
    { clear. induction text as [|code text IH]; intros st0; [done|].
      rewrite draw_loop_cons, IH. apply draw_step_roleCanvas_is_Some. }
    apply (H (draw_init c rc)). }
  split; [|done].
  intros Hc. unfold rectangular. rewrite Hh. by apply Hr.
Qed.

End DrawShape.

Lemma drawCJKText_keeps_shape_witness :
  let c := blank_canvas 3 2 in
  let rc := Some (replicate 3 (replicate 2 (@None nat))) in
  let st := drawCJKText c 0 1 [0x4e2d; 0x41] false rc (Some 5%nat) in
  rectangular c /\ role_rectangular rc /\
  rectangular (canvas st) /\ role_rectangular (roleCanvas st).
Proof.
  assert (rectangular (blank_canvas 3 2)) as Hc by (repeat constructor).
  assert (role_rectangular (Some (replicate 3 (replicate 2 (@None nat))))) as Hrc
    by (repeat constructor).
  split; [exact Hc|]. split; [exact Hrc|].
  pose proof (drawCJKText_keeps_shape (blank_canvas 3 2) 0 1 [0x4e2d; 0x41] false
                (Some (replicate 3 (replicate 2 (@None nat)))) (Some 5%nat)) as H.
  cbn zeta in H. destruct H as (_ & _ & _ & _ & _ & H1 & H2).
  split; [exact (H1 Hc) | exact (H2 Hrc)].
Defined.

(** ** The style grid *)

Section DrawRoles.

Context {CharRole : Type}.
Implicit Types (a : DrawArgs CharRole) (st : DrawState CharRole).

Lemma wrote_glyph_at_app a st (pre suffix : jsstring) (cx : Z) :
  wrote_glyph_at a st pre cx -> wrote_glyph_at a st (pre ++ suffix) cx.
Proof.
  intros (pre1 & g & pre2 & -> & H). exists pre1, g, (pre2 ++ suffix).
  split; [|done]. by rewrite <- app_assoc.
Qed.

Lemma draw_step_roleCanvas_untagged a st (code : codepoint) :
  roleCanvas st = None \/ arg_role a = None ->
  roleCanvas (draw_step a st code) = roleCanvas st.
Proof.
  intros H.
  destruct (draw_step_cases a st code) as [[-> ->]|[(_ & _ & ->)|(_ & _ & ->)]].
  - unfold draw_selector. by destruct (lastWasFullwidth st).
  - done.
  - assert (forall cx, tag_role (roleCanvas st) (arg_role a) cx (arg_y a)
                       = roleCanvas st) as Htag.
    { intros cx. unfold tag_role.
      destruct H as [H|H]; rewrite H; [done | by destruct (roleCanvas st)]. }
    unfold draw_glyph. rewrite Htag.
    by destruct (glyph_writable a st), (isFullwidthChar code).
Qed.

(** Without a style grid or without a tag a call leaves the style grid
    as it is. *)
Theorem drawCJKText_without_role (c : Grid jsstring) (x y : Z)
    (text : jsstring) (force : bool) (rc : option (Grid CharRole))
    (role : option CharRole) :
  rc = None \/ role = None ->
  roleCanvas (drawCJKText c x y text force rc role) = rc.
Proof.
  intros H. unfold drawCJKText.
  set (a := draw_args c x y force role).
  assert (forall st0, roleCanvas st0 = None \/ arg_role a = None ->
            roleCanvas (draw_loop a text st0) = roleCanvas st0) as Hloop.
  { clear. induction text as [|code text IH]; intros st0 H; [done|].
    rewrite draw_loop_cons, IH.
    - by apply draw_step_roleCanvas_untagged.
    - rewrite draw_step_roleCanvas_untagged by done. done. }
  by apply (Hloop (draw_init c rc)).
Qed.

(** A call tags a style cell only where it wrote a glyph, and with the
    tag it was given: a style cell that differs after the call is in row
    [y], holds the tag, and is in a column into which the call wrote a
    glyph (never the column of a padding sentinel alone). *)
Theorem drawCJKText_tags_written_glyphs (c : Grid jsstring) (x y : Z)
    (text : jsstring) (force : bool) (rc : option (Grid CharRole))
    (role : option CharRole) (cx r : Z) :
  let a := draw_args c x y force role in
  let st := drawCJKText c x y text force rc role in
  role_get (roleCanvas st) cx r <> role_get rc cx r ->
  r = y /\ role_get (roleCanvas st) cx r = role /\
  wrote_glyph_at a (draw_init c rc) text cx.
Proof.
  intros a st. subst st. unfold drawCJKText. fold a.
  induction text as [|code text IH] using rev_ind; [done|].
  rewrite draw_loop_snoc. intros Hch.
  destruct (draw_step_role_cell a (draw_loop a text (draw_init c rc)) code cx r)
    as [Heq|(-> & -> & Hw & Hs & Hz & Hval)].
  - rewrite Heq in *. destruct (IH Hch) as (? & ? & ?).
    split; [done|]. split; [done|]. by apply wrote_glyph_at_app.
  - split; [done|]. split; [done|]. by exists text, code, [].
Qed.

Lemma draw_loop_role_behind a (text : jsstring) st (cx r : Z) :
  cx < arg_x a + offset st ->
  role_get (roleCanvas (draw_loop a text st)) cx r = role_get (roleCanvas st) cx r.
Proof.
  revert st. induction text as [|c text IH]; intros st Hcx; [done|].
  rewrite draw_loop_cons. pose proof (draw_step_offset a st c) as Ho.
  rewrite IH by lia.
  destruct (draw_step_role_cell a st c cx r) as [H|(_ & -> & _)]; [done | lia].
Qed.

(** Every glyph a call writes is tagged, when a style grid and a tag are
    given and the cell exists in the style grid. *)
Theorem drawCJKText_written_glyphs_tagged (c : Grid jsstring) (x y : Z)
    (text : jsstring) (force : bool) (g : Grid CharRole) (role : CharRole)
    (cx : Z) :
  let a := draw_args c x y force (Some role) in
  wrote_glyph_at a (draw_init c (Some g)) text cx ->
  cx < grid_width g -> y < grid_height g ->
  role_get (roleCanvas (drawCJKText c x y text force (Some g) (Some role))) cx y
  = Some role.
Proof.
  intros a (pre1 & gl & pre2 & -> & Hs & Hz & Hw & ->) Hcx Hy.
  unfold drawCJKText. fold a. rewrite draw_loop_app, draw_loop_cons.
  set (st1 := draw_loop a pre1 (draw_init c (Some g))) in *.
  pose proof (draw_step_offset_glyph a st1 gl Hs Hz) as Ho.
  rewrite draw_loop_role_behind by (destruct (isFullwidthChar gl); lia).
  destruct (draw_loop_shape a pre1 (draw_init c (Some g))) as (_ & Hwd & Hht & _); [done|].
  fold st1 in Hwd, Hht. cbn [draw_init roleCanvas from_option] in Hwd, Hht.
  pose proof (glyph_writable_in_bounds a st1 Hw) as [Hb1 Hb2].
  assert (roleCanvas (draw_step a st1 gl)
          = tag_role (roleCanvas st1) (Some role) (arg_x a + offset st1) y) as ->.
  { rewrite draw_step_glyph by done. unfold draw_glyph. rewrite Hw.
    by destruct (isFullwidthChar gl). }
  destruct (roleCanvas st1) as [g1|] eqn:Hg1.
  2:{ exfalso.
      assert (is_Some (roleCanvas st1)) as [? ?]; [|congruence].
      assert (forall text st0, is_Some (roleCanvas (draw_loop a text st0))
                               <-> is_Some (roleCanvas st0)) as H.
      { clear. induction text as [|code text IH]; intros st0; [done|].
        rewrite draw_loop_cons, IH. apply draw_step_roleCanvas_is_Some. }
      apply H. cbn. eauto. }
  cbn [from_option] in Hwd, Hht. unfold tag_role.
  assert ((arg_x a + offset st1 <? grid_width g1) && (y <? grid_height g1) = true) as ->
    by lia.
  cbn [role_get]. cbn [arg_y a draw_args] in Hb2.
  apply cell_get_set_eq; lia.
Qed.

(** A zero-width code point other than the selector, put anywhere in
    the text, changes nothing of what a call does. *)
Theorem drawCJKText_insert_zero_width (c : Grid jsstring) (x y : Z)
    (text : jsstring) (z : codepoint) (i : nat) (force : bool)
    (rc : option (Grid CharRole)) (role : option CharRole) :
  isZeroWidth z = true -> z <> VS16 ->
  drawCJKText c x y (take i text ++ z :: drop i text) force rc role
  = drawCJKText c x y text force rc role.
Proof.
  intros Hz Hne. unfold drawCJKText.
  rewrite draw_loop_app, draw_loop_cons, draw_step_zero_width by done.
  by rewrite <- draw_loop_app, take_drop.
Qed.

End DrawRoles.

Lemma drawCJKText_without_role_witness :
  roleCanvas (drawCJKText (blank_canvas 2 1) 0 0 [0x41] false
                (Some [[@None nat]; [None]]) None)
  = Some [[@None nat]; [None]].
Proof.
  apply (drawCJKText_without_role (blank_canvas 2 1) 0 0 [0x41] false
           (Some [[@None nat]; [None]]) None).
  by right.
Defined.

Lemma drawCJKText_tags_written_glyphs_witness :
  let c := row_canvas [[0x58]; [0x20]] in
  let rc := Some [[@None nat]; [None]] in
  let a := draw_args c 0 0 false (Some 3%nat) in
  let st := drawCJKText c 0 0 [0x41; 0x42] false rc (Some 3%nat) in
  role_get (roleCanvas st) 1 0 <> role_get rc 1 0 /\
  0 = 0 /\ role_get (roleCanvas st) 1 0 = Some 3%nat /\
  wrote_glyph_at a (draw_init c rc) [0x41; 0x42] 1.
Proof.
  assert (role_get (roleCanvas (drawCJKText (row_canvas [[0x58]; [0x20]]) 0 0
                      [0x41; 0x42] false (Some [[@None nat]; [None]]) (Some 3%nat))) 1 0
          <> role_get (Some [[@None nat]; [None]]) 1 0) as H
    by (vm_compute; discriminate).
  split; [exact H|].
  exact (drawCJKText_tags_written_glyphs (row_canvas [[0x58]; [0x20]]) 0 0
           [0x41; 0x42] false (Some [[@None nat]; [None]]) (Some 3%nat) 1 0 H).
Defined.

Lemma drawCJKText_written_glyphs_tagged_witness :
  role_get (roleCanvas (drawCJKText (row_canvas [[0x58]; [0x20]]) 0 0
              [0x41; 0x42] false (Some [[@None nat]; [None]]) (Some 3%nat))) 1 0
  = Some 3%nat.
Proof.
  apply (drawCJKText_written_glyphs_tagged (row_canvas [[0x58]; [0x20]]) 0 0
           [0x41; 0x42] false [[@None nat]; [None]] 3%nat 1).
  - exists [0x41], 0x42, []. repeat split; reflexivity.
  - reflexivity.
  - reflexivity.
Defined.

Lemma drawCJKText_insert_zero_width_witness :
  drawCJKText (CharRole := unit) (blank_canvas 3 1) 0 0
    (take 1 [0x41; 0x42] ++ 0x200b :: drop 1 [0x41; 0x42]) false None None
  = drawCJKText (blank_canvas 3 1) 0 0 [0x41; 0x42] false None None.
Proof.
  apply (drawCJKText_insert_zero_width (CharRole := unit) (blank_canvas 3 1) 0 0
           [0x41; 0x42] 0x200b 1 false None None); [reflexivity | discriminate].
Defined.

(** ** Drawing in two calls *)

Section DrawCompose.

Context {CharRole : Type}.
Implicit Types (a : DrawArgs CharRole) (st : DrawState CharRole).

(** An iteration on a code point other than the selector looks at the
    start column and the offset only through their sum, and not at the
    other two locals. *)
Lemma draw_step_restart a a' st st' (code : codepoint) :
  arg_y a = arg_y a' -> forceOverwrite a = forceOverwrite a' ->
  arg_role a = arg_role a' -> arg_h a = arg_h a' ->
  canvas st = canvas st' -> roleCanvas st = roleCanvas st' ->
  arg_x a + offset st = arg_x a' + offset st' ->
  code <> VS16 ->
  canvas (draw_step a st code) = canvas (draw_step a' st' code) /\
  roleCanvas (draw_step a st code) = roleCanvas (draw_step a' st' code) /\
  arg_x a + offset (draw_step a st code) = arg_x a' + offset (draw_step a' st' code).
Proof.
  intros Hy Hf Hr Hh Hc Hrc Hx Hne.
  destruct (draw_step_cases a st code) as [[-> _]|[(_ & Hz & ->)|(Hs & Hz & ->)]];
    [done| |].
  - by rewrite draw_step_zero_width.
  - rewrite draw_step_glyph by done.
    unfold draw_glyph, glyph_writable.
    replace (arg_x a + (offset st + 1)) with (arg_x a + offset st + 1) by lia.
    replace (arg_x a' + (offset st' + 1)) with (arg_x a' + offset st' + 1) by lia.
    rewrite <- Hy, <- Hf, <- Hr, <- Hh, <- Hc, <- Hrc, <- Hx.
    destruct (isFullwidthChar code); cbn [canvas roleCanvas offset];
      (split; [done|]); (split; [done|]); lia.
Qed.

Lemma draw_loop_restart a a' (text : jsstring) st st' :
  arg_y a = arg_y a' -> forceOverwrite a = forceOverwrite a' ->
  arg_role a = arg_role a' -> arg_h a = arg_h a' ->
  canvas st = canvas st' -> roleCanvas st = roleCanvas st' ->
  arg_x a + offset st = arg_x a' + offset st' ->
  ~ In VS16 text ->
  canvas (draw_loop a text st) = canvas (draw_loop a' text st') /\
  roleCanvas (draw_loop a text st) = roleCanvas (draw_loop a' text st').
Proof.
  intros Hy Hf Hr Hh. revert st st'.
  induction text as [|c text IH]; intros st st' Hc Hrc Hx Hin; [done|].
  rewrite !draw_loop_cons.
  assert (c <> VS16) as Hne by (intros ->; apply Hin; by left).
  assert (~ In VS16 text) as Hin' by (intros H; apply Hin; by right).
  destruct (draw_step_restart a a' st st' c) as (? & ? & ?); try done.
  by apply IH.
Qed.

(** On sequences of code points: drawing [s1 ++ s2] at [x] is drawing
    [s1] at [x] and then [s2] at [x + displayWidth s1], when every
    selector of [s1] upgrades and [s2] has none. *)
Lemma drawCJKText_app (c : Grid jsstring) (x y : Z) (s1 s2 : jsstring)
    (force : bool) (rc : option (Grid CharRole)) (role : option CharRole) :
  selectors_upgrade s1 = true -> ~ In VS16 s2 ->
  let st1 := drawCJKText c x y s1 force rc role in
  let st2 := drawCJKText (canvas st1) (x + displayWidth s1) y s2 force
               (roleCanvas st1) role in
  canvas (drawCJKText c x y (s1 ++ s2) force rc role) = canvas st2 /\
  roleCanvas (drawCJKText c x y (s1 ++ s2) force rc role) = roleCanvas st2.
Proof.
  intros Hsel Hin st1 st2. subst st1 st2. unfold drawCJKText.
  set (a := draw_args c x y force role).
  rewrite draw_loop_app.
  set (st1 := draw_loop a s1 (draw_init c rc)).
  apply draw_loop_restart; try done.
  - cbn [arg_h draw_args]. subst a.
    destruct (draw_loop_shape (draw_args c x y force role) s1 (draw_init c rc))
      as [Hh _]; [done|]. fold st1 in Hh. by rewrite Hh.
  - cbn [arg_x draw_args draw_init offset]. subst a.
    destruct (draw_loop_offset_width (draw_args c x y force role) s1
                (draw_init c rc) (mkWidthState 0 false)) as [_ H]; [done|].
    specialize (H Hsel). fold st1 in H. unfold displayWidth.
    cbn [offset draw_init w arg_x draw_args] in *. lia.
Qed.

End DrawCompose.


(** ** Drawing with [forceOverwrite] *)

Lemma cell_set_agree {A : Type} (c1 c2 : Grid A) (px y : Z) (v : A) (cx r : Z) :
  grid_width c1 = grid_width c2 -> 0 <= px < grid_width c1 -> 0 <= y ->
  cell_get c1 cx r = cell_get c2 cx r ->
  cell_get (cell_set c1 px y v) cx r = cell_get (cell_set c2 px y v) cx r.
Proof.
  intros Hw Hpx Hy Heq.
  destruct (decide (cx = px /\ r = y)) as [[-> ->]|Hne].
  - rewrite !cell_get_set_eq by lia. done.
  - rewrite !cell_get_set_ne by lia. done.
Qed.

Lemma cell_set_same_writes {A : Type} (g1 g2 c1 c2 : Grid A) (px y : Z) (v : A) :
  grid_width c1 = grid_width c2 -> 0 <= px < grid_width c1 -> 0 <= y ->
  same_writes g1 g2 c1 c2 ->
  same_writes g1 g2 (cell_set c1 px y v) (cell_set c2 px y v).
Proof.
  intros Hw Hpx Hy Hsame cx r.
  destruct (decide (cx = px /\ r = y)) as [[-> ->]|Hne].
  - left. rewrite !cell_get_set_eq by lia. done.
  - rewrite !cell_get_set_ne by lia. apply Hsame.
Qed.

Section DrawForce.

Context {CharRole : Type}.
Implicit Types (a : DrawArgs CharRole) (st : DrawState CharRole).

Lemma tag_role_same_writes (r1 r2 s1 s2 : option (Grid CharRole))
    (role : option CharRole) (cx y : Z) :
  0 <= cx -> 0 <= y ->
  from_option grid_width 0 s1 = from_option grid_width 0 s2 ->
  from_option grid_height 0 s1 = from_option grid_height 0 s2 ->
  (is_Some s1 <-> is_Some s2) ->
  same_role_writes r1 r2 s1 s2 ->
  same_role_writes r1 r2 (tag_role s1 role cx y) (tag_role s2 role cx y).
Proof.
  intros Hcx Hy Hw Hh Hsome Hsame. unfold tag_role.
  destruct s1 as [g|], s2 as [g'|]; try done.
  - destruct role as [rl|]; [|done]. cbn [from_option] in Hw, Hh.
    rewrite <- Hw, <- Hh.
    destruct ((cx <? grid_width g) && (y <? grid_height g)) eqn:Hin; [|done].
    intros cx' r'. cbn [role_get].
    destruct (decide (cx' = cx /\ r' = y)) as [[-> ->]|Hne].
    + left. rewrite !cell_get_set_eq by lia. done.
    + rewrite !cell_get_set_ne by lia. apply (Hsame cx' r').
  - destruct Hsome as [H _]. by destruct H.
  - destruct Hsome as [_ H]. by destruct H.
Qed.

(** With [forceOverwrite] one iteration does the same writes whatever
    the grid holds. *)
Lemma draw_step_runs_related a (g1 g2 : Grid jsstring)
    (r1 r2 : option (Grid CharRole)) st st' (code : codepoint) :
  forceOverwrite a = true ->
  runs_related a g1 g2 r1 r2 st st' ->
  runs_related a g1 g2 r1 r2 (draw_step a st code) (draw_step a st' code).
Proof.
  intros Hforce (Ho & Hlw & Hfw & Hwd & Hrw & Hrh & Hsome & Hlast & Hsame & Hrole).
  assert (forall cx, in_bounds (canvas st') (arg_h a) cx (arg_y a)
                     = in_bounds (canvas st) (arg_h a) cx (arg_y a)) as Hinb.
  { intros cx. unfold in_bounds. by rewrite Hwd. }
  destruct (draw_step_cases a st code) as [[-> Hd]|[(Hne & Hz & Hd)|(Hs & Hz & Hd)]].
  - (* selector *)
    rewrite !draw_step_VS16. unfold draw_selector.
    rewrite <- Hlw, <- Hfw, <- Ho, Hinb.
    set (lw := lastWrittenCx st) in *. set (y := arg_y a) in *.
    set (c1 := if in_bounds (canvas st) (arg_h a) lw y
               then cell_set (canvas st) lw y (default [] (cell_get (canvas st) lw y) ++ [VS16])
               else canvas st).
    set (c1' := if in_bounds (canvas st) (arg_h a) lw y
                then cell_set (canvas st') lw y (default [] (cell_get (canvas st') lw y) ++ [VS16])
                else canvas st').
    assert (grid_width c1 = grid_width c1' /\ grid_width c1 = grid_width (canvas st) /\
            same_writes g1 g2 c1 c1' /\
            (in_bounds (canvas st) (arg_h a) lw y = true ->
             cell_get c1 lw y = cell_get c1' lw y)) as (Hw1 & Hw1' & Hsame1 & Hlast1).
    { subst c1 c1'.
      destruct (in_bounds (canvas st) (arg_h a) lw y) eqn:Hb; [|done].
      apply in_bounds_true in Hb as Hb'. rewrite <- (Hlast eq_refl).
      rewrite !grid_width_cell_set. split; [done|]. split; [done|].
      split; [apply cell_set_same_writes; (done || lia)|].
      intros _. rewrite !cell_get_set_eq by lia. done. }
    clearbody c1 c1'.
    assert (forall cx, in_bounds c1' (arg_h a) cx y = in_bounds c1 (arg_h a) cx y) as Hinb1.
    { intros cx. unfold in_bounds. by rewrite Hw1. }
    assert (forall cx, in_bounds c1 (arg_h a) cx y = in_bounds (canvas st) (arg_h a) cx y)
      as Hinb1'.
    { intros cx. unfold in_bounds. by rewrite Hw1'. }
    destruct (lastWasFullwidth st); cbn [negb].
    + unfold runs_related. cbn [canvas roleCanvas offset lastWrittenCx lastWasFullwidth].
      rewrite Hinb1'. repeat split; try done; try apply Hsome; lia.
    + rewrite Hinb1.
      destruct (in_bounds c1 (arg_h a) (arg_x a + offset st) y) eqn:Hpx.
      * apply in_bounds_true in Hpx as Hpx'.
        unfold runs_related. cbn [canvas roleCanvas offset lastWrittenCx lastWasFullwidth].
        rewrite !grid_width_cell_set, in_bounds_cell_set, Hinb1'.
        repeat split; try done; try apply Hsome; try lia.
        { intros Hb. apply cell_set_agree; try lia. by apply Hlast1. }
        { apply cell_set_same_writes; (done || lia). }
      * unfold runs_related. cbn [canvas roleCanvas offset lastWrittenCx lastWasFullwidth].
        rewrite Hinb1'. repeat split; try done; try apply Hsome; lia.
  - (* zero width *)
    rewrite !draw_step_zero_width by done.
    unfold runs_related. repeat split; try done; apply Hsome.
  - (* ordinary character *)
    rewrite !draw_step_glyph by done. unfold draw_glyph, glyph_writable.
    rewrite Hforce, <- Ho, <- Hlw, Hinb. cbn [orb]. rewrite !andb_true_r.
    set (cx := arg_x a + offset st) in *. set (y := arg_y a) in *.
    destruct (in_bounds (canvas st) (arg_h a) cx y) eqn:Hb.
    2:{ destruct (isFullwidthChar code);
        unfold runs_related; cbn [canvas roleCanvas offset lastWrittenCx lastWasFullwidth];
        repeat split; try done; try apply Hsome; lia. }
    apply in_bounds_true in Hb as Hb'.
    pose proof (cell_set_same_writes g1 g2 (canvas st) (canvas st') cx y [code]
                  Hwd ltac:(lia) ltac:(lia) Hsame) as Hsame1.
    pose proof (tag_role_same_writes r1 r2 (roleCanvas st) (roleCanvas st')
                  (arg_role a) cx y ltac:(lia) ltac:(lia) Hrw Hrh Hsome Hrole) as Hrole1.
    destruct (tag_role_shape (roleCanvas st) (arg_role a) cx y) as (Ht1 & Ht2 & Ht3).
    destruct (tag_role_shape (roleCanvas st') (arg_role a) cx y) as (Ht1' & Ht2' & Ht3').
    assert (cell_get (cell_set (canvas st) cx y [code]) cx y
            = cell_get (cell_set (canvas st') cx y [code]) cx y) as Hglyph.
    { rewrite !cell_get_set_eq by lia. done. }
    destruct (isFullwidthChar code).
    + rewrite !in_bounds_cell_set, Hinb.
      destruct (in_bounds (canvas st) (arg_h a) (arg_x a + (offset st + 1)) y) eqn:Hpx.
      * apply in_bounds_true in Hpx as Hpx'.
        unfold runs_related. cbn [canvas roleCanvas offset lastWrittenCx lastWasFullwidth].
        rewrite !grid_width_cell_set.
        repeat split; try done; try lia; try tauto.
        { intros _. apply cell_set_agree; rewrite ?grid_width_cell_set; (done || lia). }
        { apply cell_set_same_writes; rewrite ?grid_width_cell_set; (done || lia). }
      * unfold runs_related. cbn [canvas roleCanvas offset lastWrittenCx lastWasFullwidth].
        rewrite !grid_width_cell_set.
        repeat split; try done; try lia; tauto.
    + unfold runs_related. cbn [canvas roleCanvas offset lastWrittenCx lastWasFullwidth].
      rewrite !grid_width_cell_set.
      repeat split; try done; try lia; tauto.
Qed.

Lemma draw_loop_runs_related a (g1 g2 : Grid jsstring)
    (r1 r2 : option (Grid CharRole)) (text : jsstring) st st' :
  forceOverwrite a = true ->
  runs_related a g1 g2 r1 r2 st st' ->
  runs_related a g1 g2 r1 r2 (draw_loop a text st) (draw_loop a text st').
Proof.
  intros Hforce. revert st st'.
  induction text as [|c text IH]; intros st st' Hrel; [done|].
  rewrite !draw_loop_cons. apply IH. by apply draw_step_runs_related.
Qed.

(** With [forceOverwrite], drawing the same text at the same place a
    second time changes nothing: every cell of both grids reads after
    the second call as after the first. *)
Theorem drawCJKText_force_idempotent (c : Grid jsstring) (x y : Z)
    (text : jsstring) (rc : option (Grid CharRole)) (role : option CharRole)
    (cx r : Z) :
  let st1 := drawCJKText c x y text true rc role in
  let st2 := drawCJKText (canvas st1) x y text true (roleCanvas st1) role in
  cell_get (canvas st2) cx r = cell_get (canvas st1) cx r /\
  role_get (roleCanvas st2) cx r = role_get (roleCanvas st1) cx r.
Proof.
  intros st1 st2. subst st2. unfold drawCJKText.
  set (a := draw_args c x y true role).
  assert (st1 = draw_loop a text (draw_init c rc)) as Hst1 by done.
  destruct (draw_loop_shape a text (draw_init c rc)) as (Hh & Hrw & Hrh & _); [done|].
  rewrite <- Hst1 in Hh, Hrw, Hrh.
  assert (draw_args (canvas st1) x y true role = a) as ->.
  { unfold draw_args. by rewrite Hh. }
  assert (runs_related a c (canvas st1) rc (roleCanvas st1)
            (draw_init c rc) (draw_init (canvas st1) (roleCanvas st1))) as Hrel.
  { unfold runs_related.
    cbn [draw_init canvas roleCanvas offset lastWrittenCx lastWasFullwidth].
    split; [done|]. split; [done|]. split; [done|].
    split; [by rewrite Hst1, draw_loop_grid_width|].
    split; [done|]. split; [done|].
    split.
    { rewrite Hst1. clear.
      assert (forall st0, is_Some (roleCanvas (draw_loop a text st0))
                          <-> is_Some (roleCanvas st0)) as H.
      { induction text as [|code text IH]; intros st0; [done|].
        rewrite draw_loop_cons, IH. apply draw_step_roleCanvas_is_Some. }
      symmetry. apply (H (draw_init c rc)). }
    split.
    { intros Hb. apply in_bounds_true in Hb. lia. }
    split; intros cx' r'; by right. }
  apply (draw_loop_runs_related a _ _ _ _ text) in Hrel; [|done].
  rewrite <- Hst1 in Hrel.
  destruct Hrel as (_ & _ & _ & _ & _ & _ & _ & _ & Hsame & Hrole).
  split.
  - destruct (Hsame cx r) as [H|[H1 H2]]; congruence.
  - destruct (Hrole cx r) as [H|[H1 H2]]; congruence.
Qed.

(** With [forceOverwrite], what a call writes does not depend on what
    the grid holds: on two grids of the same width and height, every cell
    either ends with the same content in both, or is in both what it was
    before the call; the style grid ends the same. *)
Theorem drawCJKText_force_same_writes (c1 c2 : Grid jsstring) (x y : Z)
    (text : jsstring) (rc : option (Grid CharRole)) (role : option CharRole)
    (cx r : Z) :
  grid_width c1 = grid_width c2 -> grid_height c1 = grid_height c2 ->
  let st1 := drawCJKText c1 x y text true rc role in
  let st2 := drawCJKText c2 x y text true rc role in
  (cell_get (canvas st1) cx r = cell_get (canvas st2) cx r \/
   (cell_get (canvas st1) cx r = cell_get c1 cx r /\
    cell_get (canvas st2) cx r = cell_get c2 cx r)) /\
  role_get (roleCanvas st1) cx r = role_get (roleCanvas st2) cx r.
Proof.
  intros Hw Hh st1 st2. subst st1 st2. unfold drawCJKText.
  assert (draw_args c2 x y true role = draw_args c1 x y true role) as ->.
  { unfold draw_args. by rewrite Hh. }
  set (a := draw_args c1 x y true role).
  assert (runs_related a c1 c2 rc rc (draw_init c1 rc) (draw_init c2 rc)) as Hrel.
  { unfold runs_related.
    cbn [draw_init canvas roleCanvas offset lastWrittenCx lastWasFullwidth].
    split; [done|]. split; [done|]. split; [done|]. split; [done|].
    split; [done|]. split; [done|]. split; [done|].
    split; [intros Hb; apply in_bounds_true in Hb; lia|].
    split; intros cx' r'; [by right | by left]. }
  apply (draw_loop_runs_related a _ _ _ _ text) in Hrel; [|done].
  destruct Hrel as (_ & _ & _ & _ & _ & _ & _ & _ & Hsame & Hrole).
  split; [apply Hsame|].
  destruct (Hrole cx r) as [H|[H1 H2]]; congruence.
Qed.

End DrawForce.

Lemma drawCJKText_force_same_writes_witness :
  let c1 := row_canvas [[0x58]; [0x59]; [0x5a]] in
  let c2 := blank_canvas 3 1 in
  let st1 := drawCJKText (CharRole := unit) c1 0 0 [0x4e2d] true None None in
  let st2 := drawCJKText (CharRole := unit) c2 0 0 [0x4e2d] true None None in
  (cell_get (canvas st1) 1 0 = cell_get (canvas st2) 1 0 \/
   (cell_get (canvas st1) 1 0 = cell_get c1 1 0 /\
    cell_get (canvas st2) 1 0 = cell_get c2 1 0)) /\
  role_get (roleCanvas st1) 1 0 = role_get (roleCanvas st2) 1 0.
Proof.
  apply (drawCJKText_force_same_writes (CharRole := unit)
           (row_canvas [[0x58]; [0x59]; [0x5a]]) (blank_canvas 3 1) 0 0
           [0x4e2d] None None 1 0); reflexivity.
Defined.

(** Without [forceOverwrite] a second call can change the grid: the
    blank cell 0 is written again and stays the last written cell, so
    the selector, whose [B] is now blocked, lands on it. *)
Example draw_twice_without_force :
  let st1 := drawCJKText (CharRole := unit) (blank_canvas 3 1) 0 0
               [0x20; 0x42; 0xfe0f] false None None in
  let st2 := drawCJKText (CharRole := unit) (canvas st1) 0 0
               [0x20; 0x42; 0xfe0f] false None None in
  canvas_row (canvas st1) 0 = [Some [0x20]; Some [0x42; 0xfe0f]; Some CJK_PAD] /\
  canvas_row (canvas st2) 0 = [Some [0x20; 0xfe0f]; Some [0x42; 0xfe0f]; Some CJK_PAD].
Proof. split; reflexivity. Qed.

(** ** Text that misses the grid *)

Section DrawOffGrid.

Context {CharRole : Type}.
Implicit Types (a : DrawArgs CharRole) (st : DrawState CharRole).

(** An iteration whose cursor, and the column after it, are outside the
    grid writes nothing, as long as nothing was written before. *)
Lemma draw_step_off_grid a st (code : codepoint) :
  lastWrittenCx st = -1 ->
  arg_x a + offset st + 1 < 0 \/ grid_width (canvas st) <= arg_x a + offset st ->
  canvas (draw_step a st code) = canvas st /\
  roleCanvas (draw_step a st code) = roleCanvas st /\
  lastWrittenCx (draw_step a st code) = -1.
Proof.
  intros Hlw Hout.
  assert (forall cx, cx = arg_x a + offset st \/ cx = arg_x a + (offset st + 1) \/ cx = -1 ->
            in_bounds (canvas st) (arg_h a) cx (arg_y a) = false) as Hinb.
  { intros cx Hcx. destruct (in_bounds (canvas st) (arg_h a) cx (arg_y a)) eqn:Hb; [|done].
    apply in_bounds_true in Hb. lia. }
  unfold draw_step, draw_selector, draw_glyph, glyph_writable.
  rewrite Hlw, (Hinb (-1)), (Hinb (arg_x a + offset st)) by auto. cbn [andb].
  destruct (code =? 0xfe0f); [by destruct (lastWasFullwidth st)|].
  destruct (isZeroWidth code); [done|].
  by destruct (isFullwidthChar code).
Qed.

Lemma draw_loop_off_grid a (text : jsstring) st :
  lastWrittenCx st = -1 ->
  arg_x a + offset st + 2 * Z.of_nat (length text) <= 0 \/
  (0 <= offset st /\ grid_width (canvas st) <= arg_x a) ->
  canvas (draw_loop a text st) = canvas st /\
  roleCanvas (draw_loop a text st) = roleCanvas st.
Proof.
  revert st. induction text as [|c text IH]; intros st Hlw Hout; [done|].
  rewrite draw_loop_cons. cbn [length] in Hout.
  pose proof (draw_step_offset a st c) as Ho.
  destruct (draw_step_off_grid a st c Hlw) as (Hc & Hr & Hlw'); [lia|].
  destruct (IH (draw_step a st c) Hlw') as [-> ->]; [|done].
  rewrite Hc. lia.
Qed.

(** Text that lies wholly left or right of the grid is skipped: the
    call changes nothing. *)
Theorem drawCJKText_off_grid (c : Grid jsstring) (x y : Z) (text : jsstring)
    (force : bool) (rc : option (Grid CharRole)) (role : option CharRole) :
  x + 2 * Z.of_nat (length text) <= 0 \/ grid_width c <= x ->
  canvas (drawCJKText c x y text force rc role) = c /\
  roleCanvas (drawCJKText c x y text force rc role) = rc.
Proof.
  intros Hout. unfold drawCJKText.
  apply (draw_loop_off_grid (draw_args c x y force role) text (draw_init c rc));
    cbn [draw_init lastWrittenCx offset canvas draw_args arg_x]; [done | lia].
Qed.

End DrawOffGrid.

Lemma drawCJKText_off_grid_witness :
  (3 + 2 * Z.of_nat (length [0x4e2d; 0x41]) <= 0 \/ grid_width (blank_canvas 3 1) <= 3) /\
  canvas (drawCJKText (CharRole := unit) (blank_canvas 3 1) 3 0 [0x4e2d; 0x41]
            true None None) = blank_canvas 3 1 /\
  roleCanvas (drawCJKText (CharRole := unit) (blank_canvas 3 1) 3 0 [0x4e2d; 0x41]
            true None None) = None.
Proof.
  assert (3 + 2 * Z.of_nat (length [0x4e2d; 0x41]) <= 0
          \/ grid_width (blank_canvas 3 1) <= 3) as H by (right; vm_compute; discriminate).
  split; [exact H|].
  exact (drawCJKText_off_grid (CharRole := unit) (blank_canvas 3 1) 3 0
           [0x4e2d; 0x41] true None None H).
Defined.

(** ** Concatenated strings *)

Lemma js_concat_app (s1 s2 : jsstring) :
  surrogates_join s1 s2 = false -> js_concat s1 s2 = s1 ++ s2.
Proof.
  unfold surrogates_join, js_concat.
  destruct (last s1) as [hi|]; [|done]. destruct s2 as [|lo rest]; [done|].
  by intros ->.
Qed.

(** Where a surrogate pair forms at the seam the widths do not add up. *)
Example displayWidth_concat_surrogates :
  js_concat [0xd800] [0xdc00] = [0x10000] /\
  displayWidth [0xd800] = 1 /\ displayWidth [0xdc00] = 1 /\
  displayWidth (js_concat [0xd800] [0xdc00]) = 1.
Proof. repeat split. Qed.

(** The width of a concatenation [s1 + s2] in which no surrogate pair
    forms at the seam is the sum of the widths, plus one column when a
    selector at the head of [s2] upgrades the last character of [s1]; it
    is the sum when [s2] has no selector. *)
Theorem displayWidth_concat (s1 s2 : jsstring) :
  surrogates_join s1 s2 = false ->
  displayWidth s1 + displayWidth s2 <= displayWidth (js_concat s1 s2)
    <= displayWidth s1 + displayWidth s2 + 1 /\
  (~ In VS16 s2 ->
   displayWidth (js_concat s1 s2) = displayWidth s1 + displayWidth s2).
Proof.
  intros Hj. rewrite (js_concat_app s1 s2 Hj). apply displayWidth_app.
Qed.

Lemma displayWidth_concat_witness :
  surrogates_join [0x26a0] [0x4e2d] = false /\ ~ In VS16 [0x4e2d] /\
  displayWidth (js_concat [0x26a0] [0x4e2d])
  = displayWidth [0x26a0] + displayWidth [0x4e2d].
Proof.
  assert (~ In VS16 [0x4e2d]) as Hin.
  { cbn [In]. intros [H|[]]. discriminate. }
  split; [reflexivity|]. split; [exact Hin|].
  exact (proj2 (displayWidth_concat [0x26a0] [0x4e2d] eq_refl) Hin).
Defined.

(** Drawing [s1 + s2] at [x], when no surrogate pair forms at the seam,
    is drawing [s1] at [x] and then [s2] at [x + displayWidth s1],
    provided every selector of [s1] upgrades and [s2] has none. *)
Theorem drawCJKText_concat {CharRole : Type} (c : Grid jsstring) (x y : Z)
    (s1 s2 : jsstring) (force : bool) (rc : option (Grid CharRole))
    (role : option CharRole) :
  surrogates_join s1 s2 = false ->
  selectors_upgrade s1 = true -> ~ In VS16 s2 ->
  let st1 := drawCJKText c x y s1 force rc role in
  let st2 := drawCJKText (canvas st1) (x + displayWidth s1) y s2 force
               (roleCanvas st1) role in
  canvas (drawCJKText c x y (js_concat s1 s2) force rc role) = canvas st2 /\
  roleCanvas (drawCJKText c x y (js_concat s1 s2) force rc role) = roleCanvas st2.
Proof.
  intros Hj Hsel Hin. rewrite (js_concat_app s1 s2 Hj).
  by apply drawCJKText_app.
Qed.

Lemma drawCJKText_concat_witness :
  let c := blank_canvas 6 1 in
  let st1 := drawCJKText (CharRole := unit) c 0 0 [0x26a0; 0xfe0f] false None None in
  let st2 := drawCJKText (canvas st1) (0 + displayWidth [0x26a0; 0xfe0f]) 0
               [0x4e2d; 0x41] false (roleCanvas st1) None in
  canvas (drawCJKText (CharRole := unit) c 0 0
            (js_concat [0x26a0; 0xfe0f] [0x4e2d; 0x41]) false None None)
  = canvas st2 /\
  roleCanvas (drawCJKText (CharRole := unit) c 0 0
                (js_concat [0x26a0; 0xfe0f] [0x4e2d; 0x41]) false None None)
  = roleCanvas st2.
Proof.
  apply (drawCJKText_concat (CharRole := unit) (blank_canvas 6 1) 0 0
           [0x26a0; 0xfe0f] [0x4e2d; 0x41] false None None).
  - reflexivity.
  - reflexivity.
  - cbn [In]. intros [H|[H|[]]]; discriminate.
Defined.
